(** * notifr: target routing configuration, validation, SMTP retry loop and
      fan-out handler

    A shallow embedding of the package [internal/notifr]: its configuration
    of targets, its HTTP handler and its SMTP sender.  Go strings are byte
    strings ([string]); the map
    [targets map[string]*target] is a [gmap string target], and because Go
    distinguishes a nil map from an empty one (the decode test compares with
    [reflect.DeepEqual]), the field is an [option].  Loops over a Go map
    visit the keys in an unspecified order: every such loop takes the order
    of visit as an argument, and the theorems quantify over it. *)

From Stdlib Require Import Ascii String.
From stdpp Require Import gmap strings list fin_maps pretty.

Local Open Scope string_scope.
Local Open Scope list_scope.

(** ** The part of package [strings] the code uses *)

Module GoStrings.

(** [strings.Split(s, sep)] for a separator of one byte (the code only
    splits on "," , ":" and a line feed). *)
Fixpoint Split (s : string) (sep : ascii) : list string :=
  match s with
  | EmptyString => [EmptyString]
  | String c rest =>
      if decide (c = sep) then EmptyString :: Split rest sep
      else match Split rest sep with
           | [] => [String c EmptyString]
           | h :: t => String c h :: t
           end
  end.

(** [strings.Join(elems, sep)]. *)
Fixpoint Join (elems : list string) (sep : string) : string :=
  match elems with
  | [] => ""
  | [e] => e
  | e :: es => e +:+ sep +:+ Join es sep
  end.

(** [c] occurs in [s]. *)
Fixpoint contains (c : ascii) (s : string) : bool :=
  match s with
  | EmptyString => false
  | String c' rest => bool_decide (c' = c) || contains c rest
  end.

(** [strings.Trim(s, cutset)] restricted to what the handler test uses:
    cutting a one-byte cutset. *)
Fixpoint TrimLeft (s : string) (cut : ascii) : string :=
  match s with
  | String c rest => if decide (c = cut) then TrimLeft rest cut else s
  | EmptyString => EmptyString
  end.

Fixpoint TrimRight (s : string) (cut : ascii) : string :=
  match s with
  | EmptyString => EmptyString
  | String c rest =>
      match TrimRight rest cut with
      | EmptyString => if decide (c = cut) then EmptyString else String c EmptyString
      | r => String c r
      end
  end.

Definition Trim (s : string) (cut : ascii) : string :=
  TrimRight (TrimLeft s cut) cut.

End GoStrings.
Import GoStrings.

Definition comma : ascii := ","%char.
Definition colon : ascii := ":"%char.
Definition newline : ascii := ascii_of_nat 10.

(** ** Data model ([notifr.go]) *)

Definition DeliveryType := string.

(** [const DeliverySMTP DeliveryType = "smtp"] *)
Definition DeliverySMTP : DeliveryType := "smtp".

(** [type delivery struct { name DeliveryType; recipients []string }] *)
Record delivery := Delivery { name : DeliveryType; recipients : list string }.

(** [type target struct { deliveries []*delivery }] *)
Record target := Target { deliveries : list delivery }.

(** [type TargetsConfig struct { targets map[string]*target }];
    [None] is the nil map of the zero value. *)
Record TargetsConfig := Config { targets : option (gmap string target) }.

Definition zeroConfig : TargetsConfig := Config None.

Inductive valErrKind :=
| errKindInvTargetSyntax
| errKindEmptyTargets
| errKindUnsupportedDelivery
| errKindInvalidEmail.

(** [type valError struct { kind valErrKind; target string }] (the field
    [target] is [etarget] here, [target] being the struct above). *)
Record valError := ValError { kind : valErrKind; etarget : string }.

#[global] Instance delivery_eq_dec : EqDecision delivery.
Proof. solve_decision. Defined.
#[global] Instance target_eq_dec : EqDecision target.
Proof. solve_decision. Defined.
#[global] Instance valErrKind_eq_dec : EqDecision valErrKind.
Proof. solve_decision. Defined.
#[global] Instance valError_eq_dec : EqDecision valError.
Proof. solve_decision. Defined.

(** The targets of a configuration, a nil map reading as an empty one
    (as [len], indexing and [range] do in Go). *)
Definition targetsOf (cnf : TargetsConfig) : gmap string target :=
  default ∅ (targets cnf).

(** ** [TargetsConfig.Decode] *)

(** The two syntax checks of the loop body: [len(elem) != 3], then an empty
    field.  Both return the same error, so the result only says whether the
    entry passed, and with which fields. *)
Definition splitEntry (v : string) : option (string * DeliveryType * string) :=
  match Split v colon with
  | [tgtName; dlvName; rcpt] =>
      if decide (tgtName = "" ∨ dlvName = "" ∨ rcpt = "") then None
      else Some (tgtName, dlvName, rcpt)
  | _ => None
  end.

(** The inner search loop: index of the first delivery named [dlvName]. *)
Fixpoint findDelivery (ds : list delivery) (dlvName : DeliveryType) : option nat :=
  match ds with
  | [] => None
  | d :: ds' =>
      if decide (name d = dlvName) then Some 0
      else S <$> findDelivery ds' dlvName
  end.

Definition appendRecipient (rcpt : string) (d : delivery) : delivery :=
  Delivery (name d) (recipients d ++ [rcpt]).

(** The rest of the loop body on the target found or created: the delivery
    is the one the search found or a new one appended to the slice, and the
    recipient is appended to it in place. *)
Definition addRecipient (tgt : target) (dlvName : DeliveryType) (rcpt : string) : target :=
  match findDelivery (deliveries tgt) dlvName with
  | Some i => Target (alter (appendRecipient rcpt) i (deliveries tgt))
  | None =>
      Target (alter (appendRecipient rcpt) (length (deliveries tgt))
                (deliveries tgt ++ [Delivery dlvName []]))
  end.

(** One well-formed entry applied to the map. *)
Definition addEntry (m : gmap string target) (e : string * DeliveryType * string)
  : gmap string target :=
  let '(tgtName, dlvName, rcpt) := e in
  let tgt := default (Target []) (m !! tgtName) in
  <[tgtName := addRecipient tgt dlvName rcpt]> m.

(** The [for _, v := range strings.Split(value, ",")] loop, with its early
    return: the map as mutated so far comes back with the error. *)
Fixpoint decodeEntries (vs : list string) (m : gmap string target)
  : gmap string target * option valError :=
  match vs with
  | [] => (m, None)
  | v :: vs' =>
      match splitEntry v with
      | None => (m, Some (ValError errKindInvTargetSyntax v))
      | Some e => decodeEntries vs' (addEntry m e)
      end
  end.

(** [func (cnf *TargetsConfig) Decode(value string) error]: the receiver
    after the call and the error returned ([None] is [nil]). *)
Definition Decode (cnf : TargetsConfig) (value : string)
  : TargetsConfig * option valError :=
  if decide (value = "") then (cnf, None)
  else
    let '(m, err) := decodeEntries (Split value comma) (targetsOf cnf) in
    (Config (Some m), err).

(** ** Ranging over the targets map *)

(** [for targetName, target := range cnf.targets] visits every key once, in
    an order Go leaves unspecified.  [order] is the order of one run; it is
    a legal one when [visits m order] holds. *)
Definition rangeMap (order : list string) (m : gmap string target)
  : list (string * target) :=
  omap (λ k, pair k <$> m !! k) order.

Definition visits (m : gmap string target) (order : list string) : Prop :=
  order ≡ₚ elements (dom m).

(** [fmt.Sprintf("%s:%s:%s", targetName, delivery.name, recipient)] *)
Definition targetString (tgtName : string) (dlvName : DeliveryType) (rcpt : string) : string :=
  tgtName +:+ ":" +:+ dlvName +:+ ":" +:+ rcpt.

(** The (target, delivery, recipient) triples in the order the three nested
    loops of [MarshalJSON] and [validateTargetConfig] meet them. *)
Definition triplesOfTarget (kv : string * target) : list (string * DeliveryType * string) :=
  d ← deliveries kv.2; r ← recipients d; [(kv.1, name d, r)].

Definition triplesIn (order : list string) (cnf : TargetsConfig)
  : list (string * DeliveryType * string) :=
  rangeMap order (targetsOf cnf) ≫= triplesOfTarget.

(** The triples of a map of targets and of a configuration, whatever the
    order. *)
Definition mapTriple (m : gmap string target) (e : string * DeliveryType * string) : Prop :=
  ∃ tgt dl, m !! e.1.1 = Some tgt ∧ dl ∈ deliveries tgt
            ∧ name dl = e.1.2 ∧ e.2 ∈ recipients dl.

Definition hasTriple (cnf : TargetsConfig) (e : string * DeliveryType * string) : Prop :=
  mapTriple (targetsOf cnf) e.

(** ** [TargetsConfig.MarshalJSON] *)

Section Marshal.
(** [fmt.Sprintf("%q", s)] (package [fmt]) *)
Variable quote : string → string.

(** The slice [vv] after the loops. *)
Definition marshalEntries (order : list string) (cnf : TargetsConfig) : list string :=
  (λ e : string * DeliveryType * string, targetString e.1.1 e.1.2 e.2)
    <$> triplesIn order cnf.

Definition MarshalJSON (order : list string) (cnf : TargetsConfig) : string :=
  quote (Join (marshalEntries order cnf) ",").
End Marshal.

(** ** The pattern [reEmail] *)

Module Regexp.

(** Regular expressions over bytes, with the operators the pattern uses. *)
Inductive regexp :=
| Never
| Empty
| Class (p : ascii → bool)
| Cat (r1 r2 : regexp)
| Alt (r1 r2 : regexp)
| Star (r : regexp).

Definition Plus (r : regexp) : regexp := Cat r (Star r).
Definition Opt (r : regexp) : regexp := Alt Empty r.
Definition Lit (c : ascii) : regexp := Class (λ x, bool_decide (x = c)).
Definition AnyByte : regexp := Class (λ _, true).

(** What it is for a string to match, as the syntax of regular
    expressions defines it. *)
Inductive Matches : regexp → string → Prop :=
| MEmpty : Matches Empty ""
| MClass p c : p c = true → Matches (Class p) (String c "")
| MCat r1 r2 s1 s2 : Matches r1 s1 → Matches r2 s2 → Matches (Cat r1 r2) (s1 +:+ s2)
| MAltL r1 r2 s : Matches r1 s → Matches (Alt r1 r2) s
| MAltR r1 r2 s : Matches r2 s → Matches (Alt r1 r2) s
| MStar0 r : Matches (Star r) ""
| MStarS r s1 s2 : Matches r s1 → Matches (Star r) s2 → Matches (Star r) (s1 +:+ s2).

Fixpoint nullable (r : regexp) : bool :=
  match r with
  | Never | Class _ => false
  | Empty | Star _ => true
  | Cat r1 r2 => nullable r1 && nullable r2
  | Alt r1 r2 => nullable r1 || nullable r2
  end.

(** The derivative of [r] by the byte [c]. *)
Fixpoint deriv (c : ascii) (r : regexp) : regexp :=
  match r with
  | Never | Empty => Never
  | Class p => if p c then Empty else Never
  | Cat r1 r2 =>
      if nullable r1 then Alt (Cat (deriv c r1) r2) (deriv c r2)
      else Cat (deriv c r1) r2
  | Alt r1 r2 => Alt (deriv c r1) (deriv c r2)
  | Star r1 => Cat (deriv c r1) (Star r1)
  end.

(** Derivatives of the dead expression are pruned as they appear, which
    keeps the expressions small. *)
Definition mkCat (r1 r2 : regexp) : regexp :=
  match r1, r2 with
  | Never, _ | _, Never => Never
  | Empty, _ => r2
  | _, _ => Cat r1 r2
  end.

Definition mkAlt (r1 r2 : regexp) : regexp :=
  match r1, r2 with
  | Never, _ => r2
  | _, Never => r1
  | _, _ => Alt r1 r2
  end.

Fixpoint prune (r : regexp) : regexp :=
  match r with
  | Cat r1 r2 => mkCat (prune r1) (prune r2)
  | Alt r1 r2 => mkAlt (prune r1) (prune r2)
  | _ => r
  end.

Fixpoint matchAll (r : regexp) (s : string) : bool :=
  match s with
  | EmptyString => nullable r
  | String c rest => matchAll (prune (deriv c r)) rest
  end.

(** [MatchString] of a compiled pattern: some substring of [s] matches. *)
Definition MatchString (r : regexp) (s : string) : bool :=
  matchAll (Cat (Star AnyByte) (Cat r (Star AnyByte))) s.

End Regexp.
Import Regexp.

Definition isLowerOrDigit (c : ascii) : bool :=
  let n := nat_of_ascii c in
  ((97 <=? n)%nat && (n <=? 122)%nat) || ((48 <=? n)%nat && (n <=? 57)%nat).

(** [[a-z0-9!#$%&'*+/=?^_`{|}~-]] *)
Definition localByte (c : ascii) : bool :=
  isLowerOrDigit c || contains c "!#$%&'*+/=?^_`{|}~-".

(** [[a-z0-9-]] *)
Definition labelByte (c : ascii) : bool :=
  isLowerOrDigit c || bool_decide (c = "-"%char).

(** [[a-z0-9](?:[a-z0-9-]*[a-z0-9])?] *)
Definition reLabel : regexp :=
  Cat (Class isLowerOrDigit) (Opt (Cat (Star (Class labelByte)) (Class isLowerOrDigit))).

(** [var reEmail = regexp.MustCompile(...)]: a dotted run of local bytes, an
    at sign, one or more labels each followed by a dot, and a last label. *)
Definition reEmail : regexp :=
  Cat (Plus (Class localByte))
   (Cat (Star (Cat (Lit "."%char) (Plus (Class localByte))))
    (Cat (Lit "@"%char)
     (Cat (Plus (Cat reLabel (Lit "."%char))) reLabel))).

(** ** [validateTargetConfig] *)

(** A loop whose body may return an error: the first error ends it. *)
Fixpoint rangeErr {A E} (body : A → option E) (l : list A) : option E :=
  match l with
  | [] => None
  | x :: l' =>
      match body x with
      | Some e => Some e
      | None => rangeErr body l'
      end
  end.

(** The innermost loop, which sets [deliverySupported] and breaks. *)
Fixpoint deliverySupported (supportedDeliveries : list DeliveryType) (n : DeliveryType) : bool :=
  match supportedDeliveries with
  | [] => false
  | v :: vs => if decide (n = v) then true else deliverySupported vs n
  end.

(** The body of the loop over the recipients. *)
Definition validateRecipient (supportedDeliveries : list DeliveryType)
    (targetName : string) (dlv : delivery) (recipient : string) : option valError :=
  let targetString := targetString targetName (name dlv) recipient in
  if negb (deliverySupported supportedDeliveries (name dlv)) then
    Some (ValError errKindUnsupportedDelivery targetString)
  else if decide (name dlv = DeliverySMTP) then
    if negb (MatchString reEmail recipient) then
      Some (ValError errKindInvalidEmail targetString)
    else None
  else None.

(** [func validateTargetConfig(supportedDeliveries []DeliveryType, cnf TargetsConfig) error],
    the targets visited in [order]. *)
Definition validateTargetConfig (order : list string)
    (supportedDeliveries : list DeliveryType) (cnf : TargetsConfig) : option valError :=
  if decide (size (targetsOf cnf) = 0) then Some (ValError errKindEmptyTargets "")
  else
    rangeErr (λ kv : string * target,
      rangeErr (λ dlv,
        rangeErr (validateRecipient supportedDeliveries kv.1 dlv) (recipients dlv))
        (deliveries kv.2))
      (rangeMap order (targetsOf cnf)).

(** ** Messages, senders and the handler *)

(** [type Message struct { Subject string; Text string }] *)
Record Message := Msg { Subject : string; Text : string }.

(** A Go [error] value, as far as the code inspects one: its text, and
    whether it implements [net.Error] and what [Temporary()] then says. *)
Record error := Err { errText : string; netTemporary : option bool }.

(** [v, ok := err.(net.Error); ok && v.Temporary()] *)
Definition isTemporary (e : error) : bool := default false (netTemporary e).

#[global] Instance Message_eq_dec : EqDecision Message.
Proof. solve_decision. Defined.
#[global] Instance error_eq_dec : EqDecision error.
Proof. solve_decision. Defined.

Section Notifr.
(** The state senders act on (the network, a mock's fields). *)
Context {World : Type}.

(** [type Sender interface { Send(recipients []string, msg Message) error }].
    A sender held in the registry is a value that implements the interface
    (as [NewSMTPSender(cnf.SMTP)] in [main]); the nil interface only comes
    from a key that is missing. *)
Definition Sender := list string → Message → World → option error * World.

(** [type Handler struct { senders map[DeliveryType]Sender; targets TargetsConfig }] *)
Record Handler := MkHandler {
  senders : gmap DeliveryType Sender;
  htargets : TargetsConfig
}.

(** [func NewHandler(targets TargetsConfig, senders map[DeliveryType]Sender)]:
    [sorder] is the order in which the senders are ranged over, [order]
    the one of the targets.  The error is the cause that [errors.Wrap]
    wraps. *)
Definition NewHandler (sorder : list DeliveryType) (order : list string)
    (targets : TargetsConfig) (senders : gmap DeliveryType Sender)
  : Handler + valError :=
  let supportedDeliveries := omap (λ v, (λ _, v) <$> senders !! v) sorder in
  match validateTargetConfig order supportedDeliveries targets with
  | Some err => inr err
  | None => inl (MkHandler senders targets)
  end.

(** *** [newMessageHandler] *)

(** [fmt.Sprintf("%q", s)] and [json.NewDecoder(r.Body).Decode(&msg)],
    which belong to the Go library. *)
Variable quote : string → string.
Variable jsonDecode : string → option Message.

(** The request as the handler reads it: [r.URL.Query().Get("target")],
    empty when the parameter is absent, and the body, [None] being
    [http.NoBody]. *)
Record Request := MkRequest { queryTarget : string; reqBody : option string }.

(** The response as [httptest.ResponseRecorder] holds it: the code is 200
    until a header is written. *)
Record ResponseRecorder := MkResponse { Code : nat; Body : string }.

Definition newRecorder : ResponseRecorder := MkResponse 200 "".
Definition StatusBadRequest : nat := 400.
Definition StatusOK : nat := 200.

(** [fmt.Sprintln(s)] *)
Definition Sprintln (s : string) : string := s +:+ String newline "".

(** [http.Error(w, error, code)]: the code, then the text and a line feed. *)
Definition http_Error (w : ResponseRecorder) (err : string) (code : nat) : ResponseRecorder :=
  MkResponse code (Body w +:+ err +:+ String newline "").

Inductive logEntry :=
| LogDebug (msg : string)
| LogSendFailed (dlv : DeliveryType) (err : error) (msg : Message).

(** A goroutine started by the handler: the sender looked up before the
    [go] statement ([None] is the nil interface of a missing key) and the
    two arguments of the function literal. *)
Record goroutine := Go { gsender : option Sender; gdlv : delivery; gmsg : Message }.

Inductive phase := Running | Returned | Panicked.

(** The state of one request: the recorder, the log, the world the
    senders act on, the goroutines started and not finished, the counter
    of the wait group, and the calls of [Send] made so far. *)
Record serving := MkServing {
  resp : ResponseRecorder;
  logs : list logEntry;
  world : World;
  pending : list goroutine;
  wgCount : nat;
  sent : list (DeliveryType * list string * Message);
  ph : phase
}.

Definition reject (w : ResponseRecorder) (wd : World) (body log : string) : serving :=
  MkServing (http_Error w body StatusBadRequest) [LogDebug log] wd [] 0 [] Returned.

(** The handler function up to [wg.Wait()]: a request error writes the
    response and returns; otherwise one goroutine per delivery is started
    and the counter is set to their number. *)
Definition ServeHTTP (targetsConfig : TargetsConfig) (senders : gmap DeliveryType Sender)
    (w : ResponseRecorder) (r : Request) (wd : World) : serving :=
  let targetName := queryTarget r in
  if decide (targetName = "") then
    let msg := Sprintln "Parameter 'target' is missed" in
    reject w wd msg msg
  else
    match targetsOf targetsConfig !! targetName with
    | None =>
        reject w wd ("Unknown target " +:+ quote targetName)
               ("Unknown target: " +:+ targetName)
    | Some target =>
        match reqBody r with
        | None => let msg := Sprintln "No body" in reject w wd msg msg
        | Some body =>
            match jsonDecode body with
            | None => let msg := Sprintln "Invalid body" in reject w wd msg msg
            | Some msg =>
                if decide (Text msg = "") then
                  let msg := Sprintln "Missing required fields: text" in
                  reject w wd msg msg
                else
                  MkServing w [] wd
                    ((λ dlv, Go (senders !! name dlv) dlv msg) <$> deliveries target)
                    (length (deliveries target)) [] Running
            end
        end
    end.

(** What the scheduler may do next.  A started goroutine runs its [Send]
    (taken as one step on the world), logs a failure and calls
    [wg.Done()]; calling [Send] on a nil sender panics; [wg.Wait()]
    returns, and the handler with it, once the counter is zero. *)
Inductive step : serving → serving → Prop :=
| step_send s g1 g g2 sender res wd' :
    ph s = Running →
    pending s = g1 ++ g :: g2 →
    gsender g = Some sender →
    sender (recipients (gdlv g)) (gmsg g) (world s) = (res, wd') →
    step s (MkServing (resp s)
              (logs s ++ match res with
                         | Some err => [LogSendFailed (name (gdlv g)) err (gmsg g)]
                         | None => []
                         end)
              wd' (g1 ++ g2) (wgCount s - 1)
              (sent s ++ [(name (gdlv g), recipients (gdlv g), gmsg g)]) Running)
| step_nil s g1 g g2 :
    ph s = Running →
    pending s = g1 ++ g :: g2 →
    gsender g = None →
    step s (MkServing (resp s) (logs s) (world s) (g1 ++ g2) (wgCount s) (sent s) Panicked)
| step_wait s :
    ph s = Running →
    wgCount s = 0 →
    step s (MkServing (resp s) (logs s) (world s) (pending s) 0 (sent s) Returned).

(** The body of the response as the handler test reads it,
    [strings.Trim(rr.Body.String(), "\n")]. *)
Definition bodyText (w : ResponseRecorder) : string := Trim (Body w) newline.
End Notifr.

Arguments Sender : clear implicits.
Arguments Handler : clear implicits.
Arguments goroutine : clear implicits.
Arguments serving : clear implicits.

(** ** The SMTP sender ([smtp.go]) *)

(** [type SMTPConfig struct]; a [time.Duration] is a number of nanoseconds. *)
Record SMTPConfig := MkSMTPConfig {
  Host : string;
  Port : Z;
  From : string;
  Retries : list Z
}.

(** What the code sets on a [mailyak.MailYak] before sending it. *)
Record MailYak := MkMail {
  mailAddr : string;
  mailTo : list string;
  mailFrom : string;
  mailSubject : string;
  mailPlain : string;
  mailHTML : string
}.

(** [const subjectMaxLen = 78] *)
Definition subjectMaxLen : nat := 78.

Definition dquote (s : string) : string :=
  String (ascii_of_nat 34) s +:+ String (ascii_of_nat 34) "".
Definition lf : string := String newline "".
Definition tab : string := String (ascii_of_nat 9) "".

Definition css : string :=
  "<style>table,th,td{border: 1px solid black;} tr:nth-child(even){background-color: grey;}</style>".

(** The document around the rendered Markdown. *)
Definition htmlDocument (md : string) : string :=
  lf +:+ "<!DOCTYPE html PUBLIC " +:+ dquote "-//W3C//DTD XHTML 1.0 Transitional//EN" +:+ " "
     +:+ dquote "http://www.w3.org/TR/xhtml1/DTD/xhtml1-transitional.dtd" +:+ ">" +:+ lf
  +:+ "<html xmlns=" +:+ dquote "http://www.w3.org/1999/xhtml"
     +:+ " xmlns:o=" +:+ dquote "urn:schemas-microsoft-com:office:office" +:+ ">" +:+ lf
  +:+ tab +:+ "<head>" +:+ lf
  +:+ tab +:+ tab +:+ "<title>Message</title>" +:+ css +:+ "</head>" +:+ lf
  +:+ tab +:+ "<body>" +:+ md +:+ "</body>" +:+ lf
  +:+ "</html>" +:+ lf.

(** The effects of [Send]: a call of [sendfn], a [time.Sleep]. *)
Inductive effect :=
| Attempt (mail : MailYak)
| Sleep (n : Z).

Definition isAttempt (e : effect) : bool :=
  match e with Attempt _ => true | Sleep _ => false end.

(** The number of times [sendfn] was called. *)
Definition attempts (tr : list effect) : nat := length (filter isAttempt tr).

Section SMTP.
Context {World : Type}.

(** [blackfriday.Run] and [strip.StripTags], which belong to the packages
    the sender imports. *)
Variable blackfriday_Run : string → string.
Variable strip_StripTags : string → string.

(** [type SMTPSender struct]: the embedded [SMTPConfig] and [sendfn], the
    function that sends a mail and returns an error. *)
Record SMTPSender := MkSMTPSender {
  conf : SMTPConfig;
  sendfn : MailYak → World → option error * World
}.

(** The loop over the lines of the plain text: the first one that is not
    empty, the subject staying as it is when there is none. *)
Fixpoint firstLine (lines : list string) (subject : string) : string :=
  match lines with
  | [] => subject
  | line :: rest => if decide (line ≠ "") then line else firstLine rest subject
  end.

(** The subject handed to [mail.Subject]. *)
Definition resolveSubject (msg : Message) (md : string) : string :=
  let subject := Subject msg in
  if decide (subject = "") then
    let plainText := strip_StripTags md in
    let subject := firstLine (Split plainText newline) subject in
    if decide (subjectMaxLen < String.length subject)
    then substring 0 subjectMaxLen subject
    else subject
  else subject.

(** The mail as built before the retry loop. *)
Definition buildMail (s : SMTPSender) (recipients : list string) (msg : Message) : MailYak :=
  let md := blackfriday_Run (Text msg) in
  MkMail (Host (conf s) +:+ ":" +:+ pretty (Port (conf s)))
         recipients
         (From (conf s))
         (resolveSubject msg md)
         (Text msg)
         (htmlDocument md).

(** [for _, n := range s.Retries] with its [break] and [return err], and
    the return after it; [err] is the variable declared before the loop. *)
Fixpoint retryLoop (s : SMTPSender) (mail : MailYak) (retries : list Z)
    (err : option error) (wd : World) : option error * World * list effect :=
  match retries with
  | [] => (err, wd, [])
  | n :: rest =>
      let '(err, wd) := sendfn s mail wd in
      match err with
      | None => (None, wd, [Attempt mail])
      | Some e =>
          if isTemporary e then
            let '(r, wd, tr) := retryLoop s mail rest (Some e) wd in
            (r, wd, Attempt mail :: Sleep n :: tr)
          else (Some e, wd, [Attempt mail])
      end
  end.

(** [func (s *SMTPSender) Send(recipients []string, msg Message) error],
    with the world after the call and the effects in order. *)
Definition Send (s : SMTPSender) (recipients : list string) (msg : Message) (wd : World)
  : option error * World * list effect :=
  retryLoop s (buildMail s recipients msg) (Retries (conf s)) None wd.

(** The sender as the handler's [Sender] interface sees it. *)
Definition asSender (s : SMTPSender) : Sender World :=
  λ recipients msg wd, (Send s recipients msg wd).1.

(** The world in which the [k]-th call of [sendfn] (from 0) is made when
    it is called again and again from [wd], and what that call returns. *)
Fixpoint worldAt (s : SMTPSender) (mail : MailYak) (k : nat) (wd : World) : World :=
  match k with
  | 0 => wd
  | S k' => worldAt s mail k' (sendfn s mail wd).2
  end.

Definition outcome (s : SMTPSender) (mail : MailYak) (wd : World) (k : nat) : option error :=
  (sendfn s mail (worldAt s mail k wd)).1.
End SMTP.

Arguments SMTPSender : clear implicits.

(** * The vocabulary of the properties *)

(** ** Entries and configurations *)

(** An entry that splits into exactly three non-empty fields. *)
Definition wellFormed (v : string) : Prop :=
  ∃ t d r, Split v colon = [t; d; r] ∧ t ≠ "" ∧ d ≠ "" ∧ r ≠ "".

(** A field a decoded configuration can hold: not empty, and free of both
    separators. *)
Definition cleanField (x : string) : Prop :=
  x ≠ "" ∧ contains colon x = false ∧ contains comma x = false.

Definition cleanTriple (e : string * DeliveryType * string) : Prop :=
  cleanField e.1.1 ∧ cleanField e.1.2 ∧ cleanField e.2.

(** The search, the creation and the update in place of [addRecipient],
    read as one pass over the deliveries. *)
Fixpoint addTo (ds : list delivery) (d : DeliveryType) (r : string) : list delivery :=
  match ds with
  | [] => [Delivery d [r]]
  | x :: ds' =>
      if decide (name x = d) then appendRecipient r x :: ds'
      else x :: addTo ds' d r
  end.


Definition uniqueNames (m : gmap string target) : Prop :=
  ∀ t tgt, m !! t = Some tgt → NoDup (name <$> deliveries tgt).

(** Every delivery holds a recipient: [Decode] creates a delivery only to
    put one in it. *)
Definition populated (m : gmap string target) : Prop :=
  ∀ t tgt, m !! t = Some tgt → Forall (λ dl, recipients dl ≠ []) (deliveries tgt).

Definition inhabited (m : gmap string target) : Prop :=
  ∀ t tgt, m !! t = Some tgt → deliveries tgt ≠ [].


(** The recipients the entries [es] give for a target and a delivery name,
    in the order of the entries. *)
Definition recipientsFor (es : list (string * DeliveryType * string))
    (t : string) (d : DeliveryType) : list string :=
  e ← es; if decide (e.1.1 = t ∧ e.1.2 = d) then [e.2] else [].

(** The fields of the entries of [vs] that are well formed. *)
Definition parsed (vs : list string) : list (string * DeliveryType * string) :=
  omap splitEntry vs.

(** The field [targets] is not exported: outside the package a
    configuration is the zero value, or what [Decode] leaves in a receiver
    that was one (whether that call failed or not). *)
Inductive constructed : TargetsConfig → Prop :=
| constructed_zero : constructed zeroConfig
| constructed_Decode cnf s : constructed cnf → constructed (Decode cnf s).1.

(** The check of one triple, as the loop body makes it. *)
Definition checkTriple (supportedDeliveries : list DeliveryType)
    (e : string * DeliveryType * string) : option valError :=
  validateRecipient supportedDeliveries e.1.1 (Delivery e.1.2 []) e.2.

(** A triple the validator lets through: its delivery type is supported and,
    for the SMTP type, its recipient matches the pattern. *)
Definition passes (supportedDeliveries : list DeliveryType)
    (e : string * DeliveryType * string) : Prop :=
  e.1.2 ∈ supportedDeliveries
  ∧ (e.1.2 = DeliverySMTP → MatchString reEmail e.2 = true).

(** ** The handler *)

(** A request the handler rejects. *)
Definition requestError (jsonDecode : string → option Message)
    (cnf : TargetsConfig) (r : Request) : Prop :=
  queryTarget r = ""
  ∨ targetsOf cnf !! queryTarget r = None
  ∨ reqBody r = None
  ∨ ∃ body, reqBody r = Some body
            ∧ (jsonDecode body = None
               ∨ ∃ msg, jsonDecode body = Some msg ∧ Text msg = "").





(** ** The SMTP sender *)

(** The first [k] calls of [sendfn] fail with temporary network errors. *)
Definition temporaryBefore {World} (s : SMTPSender World) (mail : MailYak) (wd : World)
    (k : nat) : Prop :=
  ∀ j, j < k → ∃ e, outcome s mail wd j = Some e ∧ isTemporary e = true.

(** The cut at [subjectMaxLen] bytes. *)
Definition cut (x : string) : string :=
  if decide (subjectMaxLen < String.length x) then substring 0 subjectMaxLen x else x.

(** * The fixtures of the package's tests *)

Module TestFixtures.

(** [%q] on a string of plain printable bytes: the string between double
    quotes. *)
Definition quotePlain (s : string) : string := dquote s.

Fixpoint dropLast (s : string) : string :=
  match s with
  | EmptyString => EmptyString
  | String c EmptyString => EmptyString
  | String c rest => String c (dropLast rest)
  end.

Definition unquotePlain (s : string) : string :=
  match s with
  | EmptyString => EmptyString
  | String _ rest => dropLast rest
  end.

(** The bodies of the handler test that are JSON objects, and the decoder
    on them. *)
Definition bodyOf (subject text : string) : string :=
  "{" +:+ dquote "subject" +:+ ":" +:+ dquote subject +:+ ","
      +:+ dquote "text" +:+ ":" +:+ dquote text +:+ "}".

Definition decodeBody (body : string) : option Message :=
  if decide (body = bodyOf "Test Subject" "Test Message")
  then Some (Msg "Test Subject" "Test Message")
  else if decide (body = bodyOf "Test Subject" "")
  then Some (Msg "Test Subject" "")
  else None.

(** Tags dropped from a text: the bytes from a [<] to the next [>]. *)
Fixpoint dropTags (inTag : bool) (s : string) : string :=
  match s with
  | EmptyString => EmptyString
  | String c rest =>
      if inTag then dropTags (negb (bool_decide (c = ">"%char))) rest
      else if decide (c = "<"%char) then dropTags true rest
      else String c (dropTags false rest)
  end.

(** The rendering of the one Markdown text of the subject case. *)
Definition titleAndBody : string := "# Title" +:+ lf +:+ "body".

Definition renderTitleAndBody (text : string) : string :=
  if decide (text = titleAndBody)
  then "<h1>Title</h1>" +:+ lf +:+ lf +:+ "<p>body</p>" +:+ lf
  else text.

(** The test's [sendfn] counts its calls in [cnt] and returns the errors
    of [errs] one by one, then [nil]. *)
Definition mockWorld : Type := nat * list error.

Definition mockSendfn (mail : MailYak) (w : mockWorld) : option error * mockWorld :=
  match w.2 with
  | [] => (None, (S w.1, []))
  | err :: errs => (Some err, (S w.1, errs))
  end.

Definition errNet : error := Err "" (Some false).
Definition errNetTemp1 : error := Err "" (Some true).
Definition errNetTemp2 : error := Err "" (Some true).

(** [cnf.Retries = []time.Duration{0, 0, 0}] *)
Definition threeRetries : list Z := [0; 0; 0]%Z.

Definition testSender (retries : list Z) : SMTPSender mockWorld :=
  MkSMTPSender (MkSMTPConfig "" 0%Z "" retries) mockSendfn.

Definition runTest (retries : list Z) (errs : list error)
  : option error * mockWorld * list effect :=
  Send renderTitleAndBody (dropTags false) (testSender retries)
       ["email@example.com"] (Msg "" "") (0, errs).

Definition oneTarget : string := "test:smtp:email@example.com".
Definition twoRecipients : string :=
  "test:smtp:email1@example.com,test:smtp:email2@example.com".
Definition twoDeliveries : string :=
  "test:smtp:email@example.com,test:sms:+79999999999".

(** An input whose second entry is malformed. *)
Definition brokenTail : string := "test:smtp:email@example.com,test".

Definition supported : list DeliveryType := [DeliverySMTP].

(** The mock sender keeps the message it was sent and returns its error. *)
Definition mockSender (err : option error) : Sender (option Message) :=
  λ _ msg _, (err, Some msg).

Definition testSenders : gmap DeliveryType (Sender (option Message)) :=
  {[ DeliverySMTP := mockSender (Some (Err "Unknown error" None)) ]}.

Definition testConfig : TargetsConfig := (Decode zeroConfig oneTarget).1.

Definition testMessage : Message := Msg "Test Subject" "Test Message".

Definition serve (r : Request) : serving (option Message) :=
  ServeHTTP quotePlain decodeBody testConfig testSenders newRecorder r None.

End TestFixtures.

(** * More of the package *)

(** ** [valError.Error] *)

(** The texts of the constants of type [valErrKind]. *)
Definition kindText (k : valErrKind) : string :=
  match k with
  | errKindInvTargetSyntax => "invalid target's syntax"
  | errKindEmptyTargets => "empty targets"
  | errKindUnsupportedDelivery => "unsupported delivery type"
  | errKindInvalidEmail => "invalid email"
  end.

(** [func (e *valError) Error() string], with [quote] for the verb [%q]. *)
Definition Error (quote : string → string) (e : valError) : string :=
  let sb := kindText (kind e) in
  if decide (etarget e ≠ "") then sb +:+ ": " +:+ quote (etarget e) else sb.

(** ** The handler of [main] *)

(** The registry [main] builds, [map{DeliverySMTP: NewSMTPSender(cnf.SMTP)}],
    and its call of [NewHandler] on the targets read from the
    environment. *)
Definition mainSenders {World} (smtp : SMTPSender World)
    (blackfriday_Run strip_StripTags : string → string)
  : gmap DeliveryType (Sender World) :=
  {[ DeliverySMTP := asSender blackfriday_Run strip_StripTags smtp ]}.

Definition mainHandler {World} (order : list string) (targets : TargetsConfig)
    (smtp : SMTPSender World) (blackfriday_Run strip_StripTags : string → string)
  : Handler World + valError :=
  NewHandler [DeliverySMTP] order targets
    (mainSenders smtp blackfriday_Run strip_StripTags).

(** * More vocabulary *)

(** The waits of a run of [Send], in order. *)
Definition sleeps (tr : list effect) : list Z :=
  omap (λ e, match e with Sleep n => Some n | Attempt _ => None end) tr.

(** The delivery at each position of [ds] is still there in [ds'], under
    the same name, and has kept its recipients at the head of its list. *)
Definition keptIn (ds ds' : list delivery) : Prop :=
  ∀ i d, ds !! i = Some d →
         ∃ d', ds' !! i = Some d' ∧ name d' = name d
               ∧ recipients d `prefix_of` recipients d'.

(** An entry added to the deliveries of its target. *)
Definition addPair (ds : list delivery) (e : string * DeliveryType * string) : list delivery :=
  addTo ds e.1.2 e.2.

(** A request the handler accepts for the target [tgt] with the message
    [msg]. *)
Definition accepted (jsonDecode : string → option Message)
    (cnf : TargetsConfig) (r : Request) (tgt : target) (msg : Message) : Prop :=
  queryTarget r ≠ ""
  ∧ targetsOf cnf !! queryTarget r = Some tgt
  ∧ ∃ body, reqBody r = Some body ∧ jsonDecode body = Some msg ∧ Text msg ≠ "".

(** The senders of the registry that never fail, and those that always
    do. *)
Definition neverFails {World} (reg : gmap DeliveryType (Sender World)) : Prop :=
  ∀ d sender rcpts msg wd, reg !! d = Some sender → (sender rcpts msg wd).1 = None.

Definition alwaysFails {World} (reg : gmap DeliveryType (Sender World)) : Prop :=
  ∀ d sender rcpts msg wd, reg !! d = Some sender → is_Some (sender rcpts msg wd).1.

(** What holds of the log while an accepted request is served. *)
Record logging {World} (reg : gmap DeliveryType (Sender World)) (tgt : target)
    (msg : Message) (s : serving World) : Prop := {
  log_pending : Forall (λ g, gsender g = reg !! name (gdlv g) ∧ gmsg g = msg
                             ∧ gdlv g ∈ deliveries tgt) (pending s);
  log_length : (length (logs s) ≤ length (sent s))%nat;
  log_entries : Forall (λ en, ∃ dl err, dl ∈ deliveries tgt
                                       ∧ en = LogSendFailed (name dl) err msg) (logs s);
  log_never : neverFails reg → logs s = [];
  log_always : alwaysFails reg → length (logs s) = length (sent s)
}.


(** * More fixtures *)

Module MoreFixtures.
Import TestFixtures.

Definition twoTargets : string :=
  "test1:smtp:email1@example.com,test2:smtp:email2@example.com".

Definition twoTargetsConfig : TargetsConfig := (Decode zeroConfig twoTargets).1.

Definition twoDeliveriesConfig : TargetsConfig := (Decode zeroConfig twoDeliveries).1.

Definition smsEntry : string := "test:sms:+79999999999".

(** A list whose second entry is malformed. *)
Definition smsThenBroken : string := "test:sms:+79999999999,test".

Definition smtpDelivery : delivery := Delivery "smtp" ["email@example.com"].
Definition smsDelivery : delivery := Delivery "sms" ["+79999999999"].

(** A registry for the two delivery types, whose SMS sender fails. *)
Definition bothSenders : gmap DeliveryType (Sender (option Message)) :=
  {[ "smtp" := mockSender None;
     "sms" := mockSender (Some (Err "Unknown error" None)) ]}.


Definition goodRequest : Request :=
  MkRequest "test" (Some (bodyOf "Test Subject" "Test Message")).

(** Three waits that differ, and as many temporary errors. *)
Definition threeWaits : list Z := [1; 2; 3]%Z.
Definition threeTemporary : list error := [errNetTemp1; errNetTemp2; errNetTemp1].

Definition invalidEmail : valError := ValError errKindInvalidEmail "test:smtp:noemail".

End MoreFixtures.

(** * Properties *)

(** ** The matcher of regular expressions *)

Section RegexpFacts.
Implicit Types (r : regexp) (s : string) (c : ascii).

Lemma append_nil_inv s1 s2 : s1 +:+ s2 = "" → s1 = "" ∧ s2 = "".
Proof. destruct s1; [done|discriminate]. Qed.

Lemma append_cons_inv s1 s2 c s :
  s1 +:+ s2 = String c s →
  (s1 = "" ∧ s2 = String c s) ∨ ∃ s1', s1 = String c s1' ∧ s = s1' +:+ s2.
Proof.
  destruct s1 as [|a s1]; [by left|]. intros [= -> <-]. right. by eexists.
Qed.

Lemma Matches_Never s : ¬ Matches Never s.
Proof. intros H. inversion H. Qed.

Lemma Matches_Empty s : Matches Empty s ↔ s = "".
Proof. split; [by inversion 1|intros ->; constructor]. Qed.

Lemma Matches_Cat r1 r2 s :
  Matches (Cat r1 r2) s ↔ ∃ s1 s2, s = s1 +:+ s2 ∧ Matches r1 s1 ∧ Matches r2 s2.
Proof.
  split.
  - inversion 1; subst. by eexists _, _.
  - intros (s1 & s2 & -> & H1 & H2). by constructor.
Qed.

Lemma Matches_Alt r1 r2 s : Matches (Alt r1 r2) s ↔ Matches r1 s ∨ Matches r2 s.
Proof.
  split.
  - inversion 1; subst; [by left|by right].
  - intros [H|H]; [by apply MAltL|by apply MAltR].
Qed.

Lemma nullable_Matches r : nullable r = true ↔ Matches r "".
Proof.
  split.
  - induction r as [| |p|r1 IH1 r2 IH2|r1 IH1 r2 IH2|r IH]; simpl; intros H; try done.
    + constructor.
    + apply andb_true_iff in H as [H1 H2].
      change "" with ("" +:+ ""). constructor; auto.
    + apply orb_true_iff in H as [H|H]; [apply MAltL|apply MAltR]; auto.
    + constructor.
  - intros H. remember "" as s eqn:Hs.
    induction H as [|p c Hp|r1 r2 s1 s2 _ IH1 _ IH2|r1 r2 s _ IH|r1 r2 s _ IH| |];
      simpl; try done.
    + apply append_nil_inv in Hs as [-> ->]. by rewrite IH1, IH2.
    + by rewrite IH.
    + rewrite IH by done. apply orb_true_r.
Qed.

Lemma deriv_Matches r c s : Matches (deriv c r) s ↔ Matches r (String c s).
Proof.
  split.
  - revert s. induction r as [| |p|r1 IH1 r2 IH2|r1 IH1 r2 IH2|r IH]; simpl; intros s H.
    + by apply Matches_Never in H.
    + by apply Matches_Never in H.
    + destruct (p c) eqn:Hp; [|by apply Matches_Never in H].
      apply Matches_Empty in H as ->. by constructor.
    + destruct (nullable r1) eqn:Hn.
      * apply Matches_Alt in H as [H|H].
        -- apply Matches_Cat in H as (s1 & s2 & -> & H1 & H2).
           change (String c (s1 +:+ s2)) with (String c s1 +:+ s2). constructor; auto.
        -- change (String c s) with ("" +:+ String c s). constructor; auto.
           by apply nullable_Matches.
      * apply Matches_Cat in H as (s1 & s2 & -> & H1 & H2).
        change (String c (s1 +:+ s2)) with (String c s1 +:+ s2). constructor; auto.
    + apply Matches_Alt in H as [H|H]; [apply MAltL|apply MAltR]; auto.
    + apply Matches_Cat in H as (s1 & s2 & -> & H1 & H2).
      change (String c (s1 +:+ s2)) with (String c s1 +:+ s2). constructor; auto.
  - intros H. remember (String c s) as cs eqn:Hcs. revert s Hcs.
    induction H as [|p a Hp|r1 r2 s1 s2 H1 IH1 H2 IH2|r1 r2 s0 _ IH|r1 r2 s0 _ IH
                   |r|r s1 s2 H1 IH1 H2 IH2]; intros s Hcs; simpl; try done.
    + injection Hcs as -> <-. rewrite Hp. constructor.
    + apply append_cons_inv in Hcs as [[-> ->]|(s1' & -> & ->)].
      * assert (nullable r1 = true) as -> by by apply nullable_Matches.
        apply MAltR. by apply IH2.
      * destruct (nullable r1); [apply MAltL|]; (constructor; [by apply IH1|done]).
    + apply MAltL. by apply IH.
    + apply MAltR. by apply IH.
    + apply append_cons_inv in Hcs as [[-> ->]|(s1' & -> & ->)].
      * by apply IH2.
      * constructor; [by apply IH1|done].
Qed.

Lemma Cat_Never_l r s : ¬ Matches (Cat Never r) s.
Proof. intros (? & ? & _ & H & _)%Matches_Cat. by apply Matches_Never in H. Qed.

Lemma Cat_Never_r r s : ¬ Matches (Cat r Never) s.
Proof. intros (? & ? & _ & _ & H)%Matches_Cat. by apply Matches_Never in H. Qed.

Lemma Cat_Empty_l r s : Matches (Cat Empty r) s ↔ Matches r s.
Proof.
  rewrite Matches_Cat. split.
  - by intros (s1 & s2 & -> & ->%Matches_Empty & H).
  - intros H. exists "", s. repeat split; [constructor|done].
Qed.

Lemma Alt_Never_l r s : Matches (Alt Never r) s ↔ Matches r s.
Proof.
  rewrite Matches_Alt. split; [|by right].
  intros [H|H]; [by apply Matches_Never in H|done].
Qed.

Lemma Alt_Never_r r s : Matches (Alt r Never) s ↔ Matches r s.
Proof.
  rewrite Matches_Alt. split; [|by left].
  intros [H|H]; [done|by apply Matches_Never in H].
Qed.

Lemma mkCat_Matches r1 r2 s : Matches (mkCat r1 r2) s ↔ Matches (Cat r1 r2) s.
Proof.
  destruct r1, r2; simpl;
    first [ tauto
          | by rewrite Cat_Empty_l
          | split; [by intros ?%Matches_Never|];
            first [by intros ?%Cat_Never_l|by intros ?%Cat_Never_r] ].
Qed.

Lemma mkAlt_Matches r1 r2 s : Matches (mkAlt r1 r2) s ↔ Matches (Alt r1 r2) s.
Proof.
  destruct r1, r2; simpl;
    first [ tauto | by rewrite Alt_Never_l | by rewrite Alt_Never_r ].
Qed.

Lemma prune_Matches r s : Matches (prune r) s ↔ Matches r s.
Proof.
  revert s. induction r as [| |p|r1 IH1 r2 IH2|r1 IH1 r2 IH2|r IH]; intros s; simpl; try done.
  - rewrite mkCat_Matches, !Matches_Cat. by setoid_rewrite IH1; setoid_rewrite IH2.
  - by rewrite mkAlt_Matches, !Matches_Alt, IH1, IH2.
Qed.

Lemma matchAll_Matches r s : matchAll r s = true ↔ Matches r s.
Proof.
  revert r. induction s as [|c s IH]; intros r; simpl.
  - apply nullable_Matches.
  - by rewrite IH, prune_Matches, deriv_Matches.
Qed.

Lemma Matches_any s : Matches (Star AnyByte) s.
Proof.
  induction s as [|c s IH]; [constructor|].
  change (String c s) with (String c "" +:+ s). constructor; [by constructor|done].
Qed.

(** [MatchString] holds exactly when a substring matches the pattern. *)
Lemma MatchString_substring r s :
  MatchString r s = true ↔ ∃ pre mid post, s = pre +:+ mid +:+ post ∧ Matches r mid.
Proof.
  unfold MatchString. rewrite matchAll_Matches, Matches_Cat. split.
  - intros (pre & rest & -> & _ & H). apply Matches_Cat in H as (mid & post & -> & H & _).
    by exists pre, mid, post.
  - intros (pre & mid & post & -> & H). exists pre, (mid +:+ post).
    split; [done|]. split; [apply Matches_any|].
    constructor; [done|apply Matches_any].
Qed.
End RegexpFacts.

(** ** The retry loop of [SMTPSender.Send] *)

Section SMTPFacts.
Context {World : Type}.
Variable blackfriday_Run : string → string.
Variable strip_StripTags : string → string.
Implicit Types (s : SMTPSender World) (mail : MailYak) (wd : World).

Lemma outcome_S s mail wd k :
  outcome s mail wd (S k) = outcome s mail (sendfn s mail wd).2 k.
Proof. reflexivity. Qed.

Lemma temporaryBefore_S s mail wd k :
  temporaryBefore s mail wd (S k) →
  (∃ e, (sendfn s mail wd).1 = Some e ∧ isTemporary e = true)
  ∧ temporaryBefore s mail (sendfn s mail wd).2 k.
Proof.
  intros H. split.
  - apply (H 0). lia.
  - intros j Hj. apply (H (S j)). lia.
Qed.

Lemma attempts_retry mail n (tr : list effect) :
  attempts (Attempt mail :: Sleep n :: tr) = S (attempts tr).
Proof. reflexivity. Qed.

(** The loop stops at the first call that succeeds. *)
Lemma retryLoop_success s mail retries err wd k :
  k < length retries →
  temporaryBefore s mail wd k →
  outcome s mail wd k = None →
  ∃ tr, retryLoop s mail retries err wd = (None, worldAt s mail (S k) wd, tr)
        ∧ attempts tr = S k.
Proof.
  revert err wd k. induction retries as [|n rest IH]; intros err wd k Hk Htmp Hout.
  - simpl in Hk. lia.
  - simpl. destruct k as [|k].
    + unfold outcome in Hout. simpl in Hout.
      destruct (sendfn s mail wd) as [r wd'] eqn:E. simpl in Hout. subst r.
      eexists. split; reflexivity.
    + apply temporaryBefore_S in Htmp as [(e & He & Ht) Htmp].
      rewrite outcome_S in Hout.
      destruct (sendfn s mail wd) as [r wd'] eqn:E. simpl in *. subst r.
      rewrite Ht.
      destruct (IH (Some e) wd' k ltac:(lia) Htmp Hout) as (tr & -> & Hn).
      eexists. split; [reflexivity|]. rewrite attempts_retry. lia.
Qed.

(** The loop stops at the first error that is not a temporary network
    error, and returns it. *)
Lemma retryLoop_permanent s mail retries err wd k e :
  k < length retries →
  temporaryBefore s mail wd k →
  outcome s mail wd k = Some e →
  isTemporary e = false →
  ∃ tr, retryLoop s mail retries err wd = (Some e, worldAt s mail (S k) wd, tr)
        ∧ attempts tr = S k.
Proof.
  revert err wd k. induction retries as [|n rest IH]; intros err wd k Hk Htmp Hout Hperm.
  - simpl in Hk. lia.
  - simpl. destruct k as [|k].
    + unfold outcome in Hout. simpl in Hout.
      destruct (sendfn s mail wd) as [r wd'] eqn:E. simpl in Hout. subst r.
      rewrite Hperm. eexists. split; reflexivity.
    + apply temporaryBefore_S in Htmp as [(e' & He & Ht) Htmp].
      rewrite outcome_S in Hout.
      destruct (sendfn s mail wd) as [r wd'] eqn:E. simpl in *. subst r.
      rewrite Ht.
      destruct (IH (Some e') wd' k ltac:(lia) Htmp Hout Hperm) as (tr & -> & Hn).
      eexists. split; [reflexivity|]. rewrite attempts_retry. lia.
Qed.

(** When every call fails with a temporary error the loop runs to its end
    and returns the error of the last call. *)
Lemma retryLoop_exhausted s mail retries err wd :
  temporaryBefore s mail wd (length retries) →
  ∃ tr, retryLoop s mail retries err wd
        = (match retries with
           | [] => err
           | _ => outcome s mail wd (length retries - 1)
           end, worldAt s mail (length retries) wd, tr)
        ∧ attempts tr = length retries.
Proof.
  revert err wd. induction retries as [|n rest IH]; intros err wd Htmp.
  - eexists. split; reflexivity.
  - apply temporaryBefore_S in Htmp as [(e & He & Ht) Htmp]. simpl.
    destruct (sendfn s mail wd) as [r wd'] eqn:E. simpl in *. subst r.
    rewrite Ht.
    destruct (IH (Some e) wd' Htmp) as (tr & -> & Hn).
    exists (Attempt mail :: Sleep n :: tr).
    split; [|rewrite attempts_retry; lia].
    rewrite Nat.sub_0_r. f_equal. f_equal. destruct rest as [|n' rest'].
    + unfold outcome. simpl. by rewrite E.
    + simpl. rewrite Nat.sub_0_r, outcome_S, E. reflexivity.
Qed.

(** C2. With a retry-wait sequence of [n > 0] entries: an attempt that
    fails with an error that is not a temporary network error ends [Send],
    which returns that error with no attempt after it; when all the [n]
    attempts fail with temporary network errors, [Send] makes exactly [n]
    attempts and returns the error of the last one; an attempt that
    succeeds ends [Send] with success and no attempt after it.  With three
    entries, two temporary failures and a success make three attempts and
    a success, and a failure of the first attempt that is not temporary
    makes one attempt. *)
Theorem Send_retry_policy s (recipients : list string) (msg : Message) wd :
  let mail := buildMail blackfriday_Run strip_StripTags s recipients msg in
  let n := length (Retries (conf s)) in
  let run := Send blackfriday_Run strip_StripTags s recipients msg wd in
  let result := run.1.1 in
  let tries := attempts run.2 in
  Retries (conf s) ≠ [] →
  (∀ k e, k < n → temporaryBefore s mail wd k →
          outcome s mail wd k = Some e → isTemporary e = false →
          result = Some e ∧ tries = S k)
  ∧ (temporaryBefore s mail wd n →
     result = outcome s mail wd (n - 1) ∧ is_Some result ∧ tries = n)
  ∧ (∀ k, k < n → temporaryBefore s mail wd k →
          outcome s mail wd k = None →
          result = None ∧ tries = S k)
  ∧ (n = 3 →
     (∀ e1 e2, outcome s mail wd 0 = Some e1 → isTemporary e1 = true →
               outcome s mail wd 1 = Some e2 → isTemporary e2 = true →
               outcome s mail wd 2 = None →
               result = None ∧ tries = 3)
     ∧ (∀ e, outcome s mail wd 0 = Some e → isTemporary e = false →
             result = Some e ∧ tries = 1)).
Proof.
  intros mail n run result tries Hne.
  assert (Hperm : ∀ k e, k < n → temporaryBefore s mail wd k →
     outcome s mail wd k = Some e → isTemporary e = false →
     result = Some e ∧ tries = S k).
  { intros k e Hk Htmp Hout Hp.
    destruct (retryLoop_permanent s mail (Retries (conf s)) None wd k e Hk Htmp Hout Hp)
      as (tr & Heq & Hn).
    subst result tries run. unfold Send. fold mail. by rewrite Heq. }
  assert (Hok : ∀ k, k < n → temporaryBefore s mail wd k →
     outcome s mail wd k = None → result = None ∧ tries = S k).
  { intros k Hk Htmp Hout.
    destruct (retryLoop_success s mail (Retries (conf s)) None wd k Hk Htmp Hout)
      as (tr & Heq & Hn).
    subst result tries run. unfold Send. fold mail. by rewrite Heq. }
  split; [exact Hperm|]. split; [|split; [exact Hok|]].
  - intros Htmp.
    destruct (retryLoop_exhausted s mail (Retries (conf s)) None wd Htmp)
      as (tr & Heq & Hn).
    assert (Hres : result = outcome s mail wd (n - 1)).
    { subst result run. unfold Send. fold mail. rewrite Heq. simpl.
      destruct (Retries (conf s)); [done|reflexivity]. }
    split; [exact Hres|]. split.
    + rewrite Hres.
      destruct (Htmp (n - 1)) as (e & -> & _); [|by eexists].
      subst n. destruct (Retries (conf s)); [done|simpl; lia].
    + subst tries run. unfold Send. fold mail. by rewrite Heq.
  - intros Hn3. split.
    + intros e1 e2 H0 Ht0 H1 Ht1 H2. apply (Hok 2); [lia| |exact H2].
      intros j Hj. destruct j as [|[|j]]; [eauto|eauto|lia].
    + intros e H0 Hp. apply (Hperm 0 e); [lia| |exact H0|exact Hp].
      intros j Hj. lia.
Qed.

(** With an empty retry-wait sequence the loop body never runs: [Send]
    does not call [sendfn] at all, leaves the world as it is and returns
    [nil]. *)
Lemma Send_no_retries_no_attempt s (recipients : list string) (msg : Message) wd :
  Retries (conf s) = [] →
  Send blackfriday_Run strip_StripTags s recipients msg wd = (None, wd, [])
  ∧ attempts (Send blackfriday_Run strip_StripTags s recipients msg wd).2 = 0.
Proof.
  intros H. unfold Send. rewrite H. split; reflexivity.
Qed.
End SMTPFacts.

(** ** Splitting and joining *)

Section SplitFacts.
Implicit Types (s : string) (c : ascii).

Lemma Split_not_nil s c : Split s c ≠ [].
Proof.
  destruct s as [|a s]; simpl; [done|].
  case_decide; [done|]. by destruct (Split s c).
Qed.

Lemma contains_app c s1 s2 :
  contains c (s1 +:+ s2) = contains c s1 || contains c s2.
Proof.
  induction s1 as [|a s1 IH]; simpl; [done|].
  by rewrite IH, orb_assoc.
Qed.

(** No piece of a split holds the separator. *)
Lemma Split_pieces s c x : x ∈ Split s c → contains c x = false.
Proof.
  revert x. induction s as [|a s IH]; simpl; intros x Hx.
  - apply list_elem_of_singleton in Hx. by subst.
  - case_decide as Hac.
    + apply elem_of_cons in Hx as [->|Hx]; [done|]. by apply IH.
    + destruct (Split s c) as [|h t] eqn:E.
      * apply list_elem_of_singleton in Hx. subst. simpl.
        by rewrite bool_decide_eq_false_2.
      * apply elem_of_cons in Hx as [->|Hx].
        -- simpl. rewrite bool_decide_eq_false_2 by done. apply IH. left.
        -- apply IH. by right.
Qed.

Lemma Split_whole s c : contains c s = false → Split s c = [s].
Proof.
  induction s as [|a s IH]; simpl; [done|].
  intros H. apply orb_false_iff in H as [Ha Hs].
  apply bool_decide_eq_false in Ha.
  rewrite decide_False by done. by rewrite (IH Hs).
Qed.

Lemma Split_cons_piece s1 s2 c :
  contains c s1 = false →
  Split (s1 +:+ String c s2) c = s1 :: Split s2 c.
Proof.
  induction s1 as [|a s1 IH]; simpl; intros H.
  - by rewrite decide_True.
  - apply orb_false_iff in H as [Ha Hs].
    apply bool_decide_eq_false in Ha.
    rewrite decide_False by done. by rewrite (IH Hs).
Qed.

(** Splitting undoes joining, for pieces free of the separator. *)
Lemma Split_Join (es : list string) c :
  es ≠ [] →
  Forall (λ e, contains c e = false) es →
  Split (Join es (String c "")) c = es.
Proof.
  induction es as [|e es IH]; [done|]. intros _ Hall.
  apply Forall_cons in Hall as [He Hes].
  destruct es as [|e' es'].
  - simpl. by apply Split_whole.
  - change (Join (e :: e' :: es') (String c ""))
      with (e +:+ String c (Join (e' :: es') (String c ""))).
    rewrite Split_cons_piece by done. f_equal. by apply IH.
Qed.

Lemma Join_nil_iff (es : list string) sep :
  Forall (λ e, e ≠ "") es → Join es sep = "" → es = [].
Proof.
  destruct es as [|e es]; [done|]. intros Hall Hj.
  apply Forall_cons in Hall as [He _]. exfalso. apply He.
  destruct es; simpl in Hj; [done|].
  destruct e; [done|discriminate].
Qed.
End SplitFacts.

(** ** Entries *)

Lemma splitEntry_Some v e :
  splitEntry v = Some e ↔
  Split v colon = [e.1.1; e.1.2; e.2] ∧ e.1.1 ≠ "" ∧ e.1.2 ≠ "" ∧ e.2 ≠ "".
Proof.
  unfold splitEntry. destruct e as [[t d] r]. simpl.
  destruct (Split v colon) as [|a [|b [|c [|? ?]]]]; try (split; [done|intros [? _]; done]).
  case_decide as H.
  - split; [done|]. intros (Heq & ? & ? & ?). simplify_eq. tauto.
  - split.
    + intros ?. simplify_eq. repeat split; auto; intros ->; tauto.
    + intros (Heq & _). by simplify_eq.
Qed.

Lemma splitEntry_wellFormed v : is_Some (splitEntry v) ↔ wellFormed v.
Proof.
  split.
  - intros [[[t d] r] H]. apply splitEntry_Some in H. by exists t, d, r.
  - intros (t & d & r & H). exists (t, d, r). by apply splitEntry_Some.
Qed.

Lemma splitEntry_None v : splitEntry v = None ↔ ¬ wellFormed v.
Proof. rewrite <- splitEntry_wellFormed, eq_None_not_Some. done. Qed.

(** The fields of an entry that was cut out at commas are clean. *)
Lemma splitEntry_clean v e :
  contains comma v = false → splitEntry v = Some e → cleanTriple e.
Proof.
  intros Hv H. apply splitEntry_Some in H as (Hs & Ht & Hd & Hr).
  assert (Hin : ∀ x, x ∈ [e.1.1; e.1.2; e.2] →
                     contains colon x = false ∧ contains comma x = false).
  { intros x Hx. rewrite <- Hs in Hx. split; [by eapply Split_pieces|].
    clear -Hv Hx. revert x Hx. induction v as [|a v IH]; simpl; intros x Hx.
    - apply list_elem_of_singleton in Hx. by subst.
    - simpl in Hv. apply orb_false_iff in Hv as [Ha Hv].
      case_decide.
      + apply elem_of_cons in Hx as [->|Hx]; [done|]. by apply IH.
      + destruct (Split v colon) as [|h t] eqn:E.
        * apply list_elem_of_singleton in Hx. subst. simpl. by rewrite Ha.
        * apply elem_of_cons in Hx as [->|Hx].
          -- simpl. rewrite Ha. apply IH; [done|left].
          -- apply IH; [done|by right]. }
  repeat split; try done; apply Hin, list_elem_of_In; simpl; auto.
Qed.

Lemma targetString_unfold t d r :
  targetString t d r = t +:+ String colon (d +:+ String colon r).
Proof. reflexivity. Qed.

(** An entry printed from clean fields reads back as these fields. *)
Lemma splitEntry_targetString e :
  cleanTriple e → splitEntry (targetString e.1.1 e.1.2 e.2) = Some e.
Proof.
  intros ((Ht & Htc & _) & (Hd & Hdc & _) & (Hr & Hrc & _)).
  apply splitEntry_Some. repeat split; try done.
  rewrite targetString_unfold, !Split_cons_piece by done. by rewrite Split_whole.
Qed.

Lemma targetString_no_comma e :
  cleanTriple e → contains comma (targetString e.1.1 e.1.2 e.2) = false.
Proof.
  intros ((_ & _ & Ht) & (_ & _ & Hd) & (_ & _ & Hr)).
  unfold targetString. rewrite !contains_app, Ht, Hd, Hr. reflexivity.
Qed.

Lemma targetString_not_empty e : cleanTriple e → targetString e.1.1 e.1.2 e.2 ≠ "".
Proof.
  intros ((Ht & _) & _). unfold targetString. destruct (e.1.1); [done|discriminate].
Qed.

(** ** One entry added to a target *)

Lemma addRecipient_addTo tgt d r :
  deliveries (addRecipient tgt d r) = addTo (deliveries tgt) d r.
Proof.
  unfold addRecipient. destruct tgt as [ds]. simpl.
  induction ds as [|x ds IH]; simpl; [done|].
  case_decide; [done|].
  destruct (findDelivery ds d) as [i|]; simpl in *; by rewrite <- IH.
Qed.




Lemma addTo_names ds d r :
  name <$> addTo ds d r
  = if decide (d ∈ name <$> ds) then name <$> ds else (name <$> ds) ++ [d].
Proof.
  induction ds as [|x ds IH].
  - reflexivity.
  - cbn [addTo]. destruct (decide (name x = d)) as [Hx|Hx].
    + rewrite decide_True; [done|]. rewrite fmap_cons, Hx. left.
    + rewrite !fmap_cons, IH. destruct (decide (d ∈ name <$> ds)) as [Hin|Hin].
      * rewrite decide_True; [done|]. by right.
      * rewrite decide_False; [done|].
        intros H'. apply elem_of_cons in H' as [->|?]; done.
Qed.

Lemma addTo_NoDup ds d r : NoDup (name <$> ds) → NoDup (name <$> addTo ds d r).
Proof.
  intros Hnd. rewrite addTo_names. case_decide as Hin; [done|].
  apply NoDup_app. repeat split; [done| |apply NoDup_singleton].
  intros x Hx Hx'. apply list_elem_of_singleton in Hx'. by subst.
Qed.


Lemma addTo_populated ds d r :
  Forall (λ dl, recipients dl ≠ []) ds →
  Forall (λ dl, recipients dl ≠ []) (addTo ds d r).
Proof.
  induction 1 as [|x ds Hx Hds IH]; simpl.
  - by repeat constructor.
  - case_decide; constructor; auto. simpl. by destruct (recipients x).
Qed.

(** The triples of a target after an entry was added are the ones it had
    and the new one. *)
Lemma addTo_triples ds d r d' r' :
  (∃ dl, dl ∈ addTo ds d r ∧ name dl = d' ∧ r' ∈ recipients dl)
  ↔ (∃ dl, dl ∈ ds ∧ name dl = d' ∧ r' ∈ recipients dl) ∨ (d' = d ∧ r' = r).
Proof.
  induction ds as [|x ds IH]; simpl.
  - split.
    + intros (dl & Hin & Hn & Hr). apply list_elem_of_singleton in Hin. subst. simpl in *.
      apply list_elem_of_singleton in Hr. by right.
    + intros [(dl & Hin & _)|[-> ->]]; [by apply elem_of_nil in Hin|].
      exists (Delivery d [r]). split; [left|]. split; [done|left].
  - case_decide as Hxd.
    + split.
      * intros (dl & Hin & Hn & Hr). apply elem_of_cons in Hin as [->|Hin].
        -- simpl in *. apply elem_of_app in Hr as [Hr|Hr].
           ++ left. exists x. split; [left|done].
           ++ apply list_elem_of_singleton in Hr. right. by subst.
        -- left. exists dl. split; [by right|done].
      * intros [(dl & Hin & Hn & Hr)|[-> ->]].
        -- apply elem_of_cons in Hin as [->|Hin].
           ++ exists (appendRecipient r x). split; [left|]. simpl. split; [done|].
              apply elem_of_app. by left.
           ++ exists dl. split; [by right|done].
        -- exists (appendRecipient r x). split; [left|]. simpl. split; [done|].
           apply elem_of_app. right. left.
    + split.
      * intros (dl & Hin & Hn & Hr). apply elem_of_cons in Hin as [->|Hin].
        -- left. exists x. split; [left|done].
        -- destruct (proj1 IH) as [(dl' & ? & ? & ?)|?]; [by exists dl| |by right].
           left. exists dl'. split; [by right|done].
      * intros [(dl & Hin & Hn & Hr)|Hnew].
        -- apply elem_of_cons in Hin as [->|Hin].
           ++ exists x. split; [left|done].
           ++ destruct (proj2 IH) as (dl' & ? & ? & ?); [left; by exists dl|].
              exists dl'. split; [by right|done].
        -- destruct (proj2 IH) as (dl' & ? & ? & ?); [by right|].
           exists dl'. split; [by right|done].
Qed.

(** ** Entries added to the map *)

Lemma recipientsFor_snoc es e t d :
  recipientsFor (es ++ [e]) t d
  = recipientsFor es t d ++ (if decide (e.1.1 = t ∧ e.1.2 = d) then [e.2] else []).
Proof.
  unfold recipientsFor. rewrite bind_app. simpl. by rewrite app_nil_r.
Qed.

Section AddEntry.
Implicit Types (m : gmap string target) (e : string * DeliveryType * string).

Lemma addEntry_lookup m e t :
  addEntry m e !! t
  = if decide (e.1.1 = t)
    then Some (addRecipient (default (Target []) (m !! e.1.1)) e.1.2 e.2)
    else m !! t.
Proof.
  destruct e as [[t0 d] r]. unfold addEntry. simpl.
  case_decide as H; [subst; apply lookup_insert_eq|by apply lookup_insert_ne].
Qed.

Lemma addEntry_triple m e e' : mapTriple (addEntry m e) e' ↔ mapTriple m e' ∨ e' = e.
Proof.
  destruct e as [[t d] r], e' as [[t' d'] r']. unfold mapTriple. cbn [fst snd].
  rewrite (addEntry_lookup m (t, d, r) t'). cbn [fst snd].
  destruct (decide (t = t')) as [<-|Hne].
  - pose proof (addTo_triples (deliveries (default (Target []) (m !! t))) d r d' r') as Hadd.
    rewrite <- addRecipient_addTo in Hadd.
    split.
    + intros (tgt & dl & Hlk & Hin & Hn & Hr). simplify_eq.
      destruct (proj1 Hadd) as [(dl' & Hin' & Hn' & Hr')|[-> ->]]; [by exists dl| |by right].
      destruct (m !! t) as [tgt|] eqn:E; simpl in Hin'; [|by apply elem_of_nil in Hin'].
      left. by exists tgt, dl'.
    + intros Hor.
      assert (Hex : ∃ dl, dl ∈ deliveries (addRecipient (default (Target []) (m !! t)) d r)
                          ∧ name dl = d' ∧ r' ∈ recipients dl).
      { apply Hadd. destruct Hor as [(tgt & dl & Hlk & Hin & Hn & Hr)|Heq].
        - left. exists dl. rewrite Hlk. done.
        - right. by simplify_eq. }
      destruct Hex as (dl & Hin & Hn & Hr).
      by eexists _, dl.
  - split.
    + intros (tgt & dl & Hlk & Hrest). left. by exists tgt, dl.
    + intros [(tgt & dl & Hlk & Hrest)|Heq]; [|by simplify_eq].
      by exists tgt, dl.
Qed.

Lemma addEntry_uniqueNames m e : uniqueNames m → uniqueNames (addEntry m e).
Proof.
  intros Hu t tgt Hlk. rewrite addEntry_lookup in Hlk.
  case_decide; [|by eapply Hu]. simplify_eq.
  rewrite addRecipient_addTo. apply addTo_NoDup.
  destruct (m !! e.1.1) eqn:E; simpl; [by eapply Hu|constructor].
Qed.

Lemma addEntry_populated m e : populated m → populated (addEntry m e).
Proof.
  intros Hp t tgt Hlk. rewrite addEntry_lookup in Hlk.
  case_decide; [|by eapply Hp]. simplify_eq.
  rewrite addRecipient_addTo. apply addTo_populated.
  destruct (m !! e.1.1) eqn:E; simpl; [by eapply Hp|constructor].
Qed.


(** A run of entries. *)
Lemma addEntries_triple es m e' :
  mapTriple (foldl addEntry m es) e' ↔ mapTriple m e' ∨ e' ∈ es.
Proof.
  revert m. induction es as [|e es IH]; intros m; simpl.
  - split; [by left|]. intros [?|H]; [done|by apply elem_of_nil in H].
  - rewrite IH, addEntry_triple, elem_of_cons. tauto.
Qed.

Lemma addEntries_uniqueNames es m : uniqueNames m → uniqueNames (foldl addEntry m es).
Proof.
  revert m. induction es as [|e es IH]; intros m Hu; simpl; [done|].
  by apply IH, addEntry_uniqueNames.
Qed.

Lemma addEntries_populated es m : populated m → populated (foldl addEntry m es).
Proof.
  revert m. induction es as [|e es IH]; intros m Hu; simpl; [done|].
  by apply IH, addEntry_populated.
Qed.

End AddEntry.

Lemma uniqueNames_empty : uniqueNames ∅.
Proof. intros t tgt H. by rewrite lookup_empty in H. Qed.

Lemma populated_empty : populated ∅.
Proof. intros t tgt H. by rewrite lookup_empty in H. Qed.

(** ** The loop of [Decode] *)

Lemma parsed_cons v vs e : splitEntry v = Some e → parsed (v :: vs) = e :: parsed vs.
Proof. intros H. unfold parsed. simpl. by rewrite H. Qed.

Lemma parsed_length vs : Forall wellFormed vs → length (parsed vs) = length vs.
Proof.
  induction 1 as [|x vs Hx _ IH]; [done|].
  apply splitEntry_wellFormed in Hx as [e He].
  rewrite (parsed_cons _ _ _ He). simpl. by rewrite IH.
Qed.

Section DecodeLoop.
Implicit Types (m : gmap string target) (vs : list string).

Lemma decodeEntries_wellFormed vs m :
  Forall wellFormed vs →
  decodeEntries vs m = (foldl addEntry m (parsed vs), None).
Proof.
  intros Hall. revert m. induction Hall as [|v vs Hv _ IH]; intros m; [done|].
  apply splitEntry_wellFormed in Hv as [e He].
  unfold parsed. simpl. rewrite He. simpl. apply IH.
Qed.

Lemma decodeEntries_malformed pre v post m :
  Forall wellFormed pre → ¬ wellFormed v →
  decodeEntries (pre ++ v :: post) m
  = (foldl addEntry m (parsed pre), Some (ValError errKindInvTargetSyntax v)).
Proof.
  intros Hall Hv. revert m. induction Hall as [|x pre Hx _ IH]; intros m.
  - apply splitEntry_None in Hv. simpl. by rewrite Hv.
  - apply splitEntry_wellFormed in Hx as [e He].
    unfold parsed. simpl. rewrite He. simpl. apply IH.
Qed.

(** Either all the entries are well formed or there is a first one that
    is not. *)
Lemma first_malformed vs :
  Forall wellFormed vs
  ∨ ∃ pre v post, vs = pre ++ v :: post ∧ Forall wellFormed pre ∧ ¬ wellFormed v.
Proof.
  induction vs as [|v vs IH]; [by left|].
  destruct (splitEntry v) as [e|] eqn:E.
  - assert (wellFormed v) by (apply splitEntry_wellFormed; eauto).
    destruct IH as [IH|(pre & x & post & -> & Hpre & Hx)].
    + left. by constructor.
    + right. exists (v :: pre), x, post. split; [done|]. split; [by constructor|done].
  - right. exists [], v, vs. split; [done|]. split; [constructor|].
    by apply splitEntry_None.
Qed.

Lemma decodeEntries_nil_iff vs m :
  (decodeEntries vs m).2 = None ↔ Forall wellFormed vs.
Proof.
  split.
  - intros H. destruct (first_malformed vs) as [?|(pre & v & post & -> & Hpre & Hv)]; [done|].
    by rewrite decodeEntries_malformed in H.
  - intros H. by rewrite decodeEntries_wellFormed.
Qed.

Lemma parsed_clean vs e :
  Forall (λ v, contains comma v = false) vs → e ∈ parsed vs → cleanTriple e.
Proof.
  intros Hall He. apply list_elem_of_omap in He as (v & Hv & Hs).
  eapply splitEntry_clean; [|done].
  rewrite Forall_forall in Hall. by apply Hall.
Qed.
End DecodeLoop.

Lemma Split_comma_free s : Forall (λ v, contains comma v = false) (Split s comma).
Proof. apply Forall_forall. intros v Hv. by eapply Split_pieces. Qed.

Lemma Decode_nonempty cnf s :
  s ≠ "" →
  Decode cnf s = (Config (Some (decodeEntries (Split s comma) (targetsOf cnf)).1),
                  (decodeEntries (Split s comma) (targetsOf cnf)).2).
Proof.
  intros Hs. unfold Decode. rewrite decide_False by done.
  by destruct (decodeEntries (Split s comma) (targetsOf cnf)).
Qed.



(** C10. When the first malformed entry of the input comes after some
    well-formed ones, [Decode] returns the syntax error and leaves in the
    receiver what decoding these entries alone puts there: the map holds
    each of them and nothing is rolled back. *)
Theorem Decode_keeps_entries_before_error cnf s pre v post :
  s ≠ "" →
  Split s comma = pre ++ v :: post →
  Forall wellFormed pre →
  ¬ wellFormed v →
  Decode cnf s
  = (Config (Some (foldl addEntry (targetsOf cnf) (parsed pre))),
     Some (ValError errKindInvTargetSyntax v))
  ∧ length (parsed pre) = length pre
  ∧ (∀ e, e ∈ parsed pre → hasTriple (Decode cnf s).1 e)
  ∧ (pre ≠ [] → Decode cnf (Join pre ",") = ((Decode cnf s).1, None)).
Proof.
  intros Hs Hsplit Hpre Hv.
  assert (Hdec : Decode cnf s
    = (Config (Some (foldl addEntry (targetsOf cnf) (parsed pre))),
       Some (ValError errKindInvTargetSyntax v))).
  { rewrite Decode_nonempty, Hsplit by done. by rewrite decodeEntries_malformed. }
  split; [exact Hdec|]. rewrite Hdec. simpl. split; [|split].
  - by apply parsed_length.
  - intros e He. unfold hasTriple. simpl. apply addEntries_triple. by right.
  - intros Hne.
    assert (Hcomma : Forall (λ x, contains comma x = false) pre).
    { pose proof (Split_comma_free s) as H. rewrite Hsplit in H.
      by apply Forall_app in H as [H _]. }
    assert (Hj : Join pre "," ≠ "").
    { intros Hj. apply Hne. eapply Join_nil_iff; [|exact Hj].
      eapply Forall_impl; [exact Hpre|].
      intros x (t & d & r & Hx & _) ->. done. }
    rewrite Decode_nonempty by done.
    change ("," : string) with (String comma "").
    rewrite Split_Join by done. by rewrite decodeEntries_wellFormed.
Qed.

(** ** Ranging over the map *)

Section Range.
Implicit Types (m : gmap string target) (order : list string).

Lemma rangeMap_elem m order k tgt :
  visits m order → (k, tgt) ∈ rangeMap order m ↔ m !! k = Some tgt.
Proof.
  intros Hv. unfold rangeMap. rewrite list_elem_of_omap. split.
  - intros (x & _ & Hx). destruct (m !! x) eqn:E; simpl in Hx; by simplify_eq.
  - intros Hlk. exists k. split; [|by rewrite Hlk].
    rewrite Hv. apply elem_of_elements, elem_of_dom. by eexists.
Qed.

Lemma triplesOfTarget_elem k tgt e :
  e ∈ triplesOfTarget (k, tgt)
  ↔ e.1.1 = k ∧ ∃ dl, dl ∈ deliveries tgt ∧ name dl = e.1.2 ∧ e.2 ∈ recipients dl.
Proof.
  unfold triplesOfTarget. simpl. rewrite list_elem_of_bind. split.
  - intros (dl & He & Hdl). apply list_elem_of_bind in He as (r & He & Hr).
    apply list_elem_of_singleton in He. subst e. simpl. split; [done|]. by exists dl.
  - intros (Hk & dl & Hdl & Hn & Hr). exists dl. split; [|done].
    apply list_elem_of_bind. exists e.2. split; [|done].
    apply list_elem_of_singleton. destruct e as [[? ?] ?]. simpl in *. by subst.
Qed.

(** The three loops meet every triple of the configuration. *)
Lemma triplesIn_elem order cnf e :
  visits (targetsOf cnf) order → e ∈ triplesIn order cnf ↔ hasTriple cnf e.
Proof.
  intros Hv. unfold triplesIn, hasTriple, mapTriple. rewrite list_elem_of_bind. split.
  - intros ([k tgt] & He & Hkv). apply triplesOfTarget_elem in He as (Hk & dl & Hrest).
    apply (rangeMap_elem _ _ _ _ Hv) in Hkv. subst k. by exists tgt, dl.
  - intros (tgt & dl & Hlk & Hrest). exists (e.1.1, tgt). split.
    + apply triplesOfTarget_elem. split; [done|]. by exists dl.
    + by apply rangeMap_elem.
Qed.
End Range.

(** ** Configurations a program can build *)

(** What a call of [Decode] does to the targets: it adds a run of entries
    with clean fields. *)
Lemma Decode_targets cnf s :
  ∃ es, Forall cleanTriple es
        ∧ targetsOf (Decode cnf s).1 = foldl addEntry (targetsOf cnf) es.
Proof.
  destruct (decide (s = "")) as [->|Hs]; [by exists []|].
  rewrite Decode_nonempty by done. simpl.
  pose proof (Split_comma_free s) as Hc.
  destruct (first_malformed (Split s comma)) as [Hall|(pre & v & post & Heq & Hpre & Hv)].
  - exists (parsed (Split s comma)). split.
    + apply Forall_forall. intros e He. by eapply parsed_clean.
    + by rewrite decodeEntries_wellFormed.
  - exists (parsed pre). rewrite Heq in *. split.
    + apply Forall_forall. intros e He. eapply parsed_clean; [|done].
      by apply Forall_app in Hc as [? _].
    + by rewrite decodeEntries_malformed.
Qed.

Lemma mapTriple_empty e : ¬ mapTriple ∅ e.
Proof. intros (tgt & dl & Hlk & _). by rewrite lookup_empty in Hlk. Qed.

Lemma hasTriple_zero e : ¬ hasTriple zeroConfig e.
Proof. apply mapTriple_empty. Qed.

Lemma constructed_clean cnf e : constructed cnf → hasTriple cnf e → cleanTriple e.
Proof.
  intros Hc. revert e. induction Hc as [|cnf s _ IH]; intros e He.
  - by apply hasTriple_zero in He.
  - destruct (Decode_targets cnf s) as (es & Hes & Heq).
    unfold hasTriple in He. rewrite Heq in He.
    apply addEntries_triple in He as [He|He]; [by apply IH|].
    rewrite Forall_forall in Hes. by apply Hes.
Qed.

Lemma constructed_populated cnf : constructed cnf → populated (targetsOf cnf).
Proof.
  induction 1 as [|cnf s _ IH]; [apply populated_empty|].
  destruct (Decode_targets cnf s) as (es & _ & ->). by apply addEntries_populated.
Qed.

Lemma constructed_uniqueNames cnf : constructed cnf → uniqueNames (targetsOf cnf).
Proof.
  induction 1 as [|cnf s _ IH]; [apply uniqueNames_empty|].
  destruct (Decode_targets cnf s) as (es & _ & ->). by apply addEntries_uniqueNames.
Qed.

(** ** Decoding what [MarshalJSON] printed *)

Lemma parsed_targetStrings (ts : list (string * DeliveryType * string)) :
  Forall cleanTriple ts →
  Forall wellFormed ((λ e, targetString e.1.1 e.1.2 e.2) <$> ts)
  ∧ parsed ((λ e, targetString e.1.1 e.1.2 e.2) <$> ts) = ts.
Proof.
  induction 1 as [|e ts He _ [IH1 IH2]]; [by split|].
  pose proof (splitEntry_targetString e He) as Hs.
  rewrite fmap_cons. split.
  - constructor; [|done]. apply splitEntry_wellFormed. by eexists.
  - rewrite (parsed_cons _ _ _ Hs). by rewrite IH2.
Qed.

(** C8. For a configuration built by [Decode], the string [MarshalJSON]
    prints (inside the quotes, and whatever the order in which the map was
    ranged over) is accepted by [Decode], and the configuration decoded from
    it has exactly the (target, delivery, recipient) triples of the
    original. *)
Theorem Decode_MarshalJSON_same_triples
    (quote unquote : string → string) (cnf : TargetsConfig) (order : list string) :
  (∀ s, unquote (quote s) = s) →
  constructed cnf →
  visits (targetsOf cnf) order →
  ∃ cnf', Decode zeroConfig (unquote (MarshalJSON quote order cnf)) = (cnf', None)
          ∧ ∀ e, hasTriple cnf' e ↔ hasTriple cnf e.
Proof.
  intros Hq Hc Hv. unfold MarshalJSON, marshalEntries. rewrite Hq.
  set (ts := triplesIn order cnf).
  assert (Hclean : Forall cleanTriple ts).
  { apply Forall_forall. intros e He. apply (constructed_clean cnf e Hc).
    by apply triplesIn_elem in He. }
  destruct (parsed_targetStrings ts Hclean) as [Hwf Hparsed].
  set (vv := (λ e : string * DeliveryType * string, targetString e.1.1 e.1.2 e.2) <$> ts) in *.
  destruct (decide (ts = [])) as [Ets|Ets].
  - exists zeroConfig. subst vv. rewrite Ets. split; [done|]. intros e.
    rewrite <- (triplesIn_elem order cnf e Hv). fold ts. rewrite Ets. split.
    + intros He. by apply hasTriple_zero in He.
    + intros He. by apply elem_of_nil in He.
  - assert (Hvv : vv ≠ []).
    { subst vv. intros H. by apply fmap_nil_inv in H. }
    assert (Hj : Join vv "," ≠ "").
    { intros Hj. apply Hvv. eapply Join_nil_iff; [|exact Hj].
      subst vv. apply Forall_fmap. eapply Forall_impl; [exact Hclean|].
      intros e He. by apply targetString_not_empty. }
    assert (Hcomma : Forall (λ v, contains comma v = false) vv).
    { subst vv. apply Forall_fmap. eapply Forall_impl; [exact Hclean|].
      intros e He. by apply targetString_no_comma. }
    exists (Config (Some (foldl addEntry ∅ ts))). split.
    + rewrite Decode_nonempty by done.
      change ("," : string) with (String comma "").
      rewrite Split_Join by done.
      rewrite decodeEntries_wellFormed by done. rewrite Hparsed. reflexivity.
    + intros e. unfold hasTriple at 1.
      change (targetsOf (Config (Some ?m))) with m.
      rewrite addEntries_triple, <- (triplesIn_elem order cnf e Hv).
      fold ts. split; [|by right].
      intros [He|?]; [by apply mapTriple_empty in He|done].
Qed.

(** ** Validation *)

Section Validate.
Implicit Types (sup : list DeliveryType) (e : string * DeliveryType * string).

Lemma deliverySupported_elem sup n : deliverySupported sup n = true ↔ n ∈ sup.
Proof.
  induction sup as [|v vs IH]; simpl.
  - split; [done|]. intros H. by apply elem_of_nil in H.
  - case_decide as H.
    + subst. split; [left|done].
    + rewrite IH, elem_of_cons. split; [by right|]. by intros [?|?].
Qed.

Lemma rangeErr_app {A E} (f : A → option E) l1 l2 :
  rangeErr f (l1 ++ l2)
  = match rangeErr f l1 with Some e => Some e | None => rangeErr f l2 end.
Proof.
  induction l1 as [|x l1 IH]; [done|]. simpl. by destruct (f x).
Qed.

Lemma rangeErr_bind {A B E} (g : A → list B) (f : B → option E) l :
  rangeErr f (l ≫= g) = rangeErr (λ x, rangeErr f (g x)) l.
Proof.
  induction l as [|x l IH]; [done|].
  rewrite bind_cons, rangeErr_app. simpl. by rewrite IH.
Qed.

Lemma rangeErr_ext {A E} (f g : A → option E) l :
  (∀ x, f x = g x) → rangeErr f l = rangeErr g l.
Proof.
  intros H. induction l as [|x l IH]; [done|]. simpl. by rewrite H, IH.
Qed.

Lemma rangeErr_None {A E} (f : A → option E) l :
  rangeErr f l = None ↔ Forall (λ x, f x = None) l.
Proof.
  induction l as [|x l IH]; simpl; [done|].
  rewrite Forall_cons. destruct (f x); [|tauto].
  split; [done|]. by intros [? _].
Qed.

Lemma rangeErr_first {A E} (f : A → option E) pre x post err :
  Forall (λ y, f y = None) pre → f x = Some err →
  rangeErr f (pre ++ x :: post) = Some err.
Proof.
  intros Hpre Hx. rewrite rangeErr_app.
  apply rangeErr_None in Hpre. rewrite Hpre. simpl. by rewrite Hx.
Qed.

(** The three nested loops are one loop over the triples. *)
Lemma validateTargetConfig_triples order sup cnf :
  size (targetsOf cnf) ≠ 0 →
  validateTargetConfig order sup cnf = rangeErr (checkTriple sup) (triplesIn order cnf).
Proof.
  intros Hsize. unfold validateTargetConfig. rewrite decide_False by done.
  unfold triplesIn. rewrite rangeErr_bind. apply rangeErr_ext. intros [k tgt].
  unfold triplesOfTarget. rewrite rangeErr_bind. apply rangeErr_ext. intros dl.
  rewrite rangeErr_bind. apply rangeErr_ext. intros r. simpl.
  unfold checkTriple, validateRecipient. simpl.
  destruct (deliverySupported sup (name dl)); simpl; [|done].
  case_decide; [|done]. by destruct (MatchString reEmail r).
Qed.

Lemma checkTriple_None sup e : checkTriple sup e = None ↔ passes sup e.
Proof.
  unfold checkTriple, validateRecipient, passes. simpl.
  destruct (deliverySupported sup e.1.2) eqn:Hs; simpl.
  - apply deliverySupported_elem in Hs. case_decide as Hsmtp.
    + destruct (MatchString reEmail e.2); simpl; [tauto|].
      split; [done|]. intros [_ H]. by specialize (H Hsmtp).
    + tauto.
  - split; [done|]. intros [Hin _]. apply deliverySupported_elem in Hin. congruence.
Qed.

Lemma checkTriple_unsupported sup e :
  e.1.2 ∉ sup →
  checkTriple sup e
  = Some (ValError errKindUnsupportedDelivery (targetString e.1.1 e.1.2 e.2)).
Proof.
  intros Hn. unfold checkTriple, validateRecipient. simpl.
  destruct (deliverySupported sup e.1.2) eqn:Hs; [|done].
  by apply deliverySupported_elem in Hs.
Qed.

Lemma checkTriple_email sup e :
  e.1.2 ∈ sup → e.1.2 = DeliverySMTP → MatchString reEmail e.2 = false →
  checkTriple sup e
  = Some (ValError errKindInvalidEmail (targetString e.1.1 e.1.2 e.2)).
Proof.
  intros Hin Hsmtp Hre. unfold checkTriple, validateRecipient. simpl.
  apply deliverySupported_elem in Hin. rewrite Hin. simpl.
  rewrite decide_True by done. by rewrite Hre.
Qed.

Lemma validateTargetConfig_nil order sup cnf :
  visits (targetsOf cnf) order →
  size (targetsOf cnf) ≠ 0 →
  validateTargetConfig order sup cnf = None ↔ ∀ e, hasTriple cnf e → passes sup e.
Proof.
  intros Hv Hsize. rewrite validateTargetConfig_triples by done.
  rewrite rangeErr_None, Forall_forall. split.
  - intros H e He. apply checkTriple_None, H. by apply triplesIn_elem.
  - intros H e He. apply checkTriple_None, H. by apply triplesIn_elem in He.
Qed.
End Validate.

(** C5. [validateTargetConfig] returns [errKindEmptyTargets] for a
    configuration without targets.  Otherwise the triples are checked in
    the order of the loops and the first that fails decides: the error is
    [errKindUnsupportedDelivery] when its delivery type is not among the
    supported ones, [errKindInvalidEmail] when the type is supported, is
    SMTP, and the recipient does not match the pattern, and in both cases
    carries the text target:delivery:recipient.  The result is [nil] exactly
    when every triple has a supported delivery type and, for SMTP, a
    recipient that matches. *)
Theorem validateTargetConfig_first_failure
    (order : list string) (sup : list DeliveryType) (cnf : TargetsConfig) :
  visits (targetsOf cnf) order →
  (size (targetsOf cnf) = 0 →
     validateTargetConfig order sup cnf = Some (ValError errKindEmptyTargets ""))
  ∧ (size (targetsOf cnf) ≠ 0 →
     (∀ pre e post,
        triplesIn order cnf = pre ++ e :: post → Forall (passes sup) pre →
        (e.1.2 ∉ sup →
           validateTargetConfig order sup cnf
           = Some (ValError errKindUnsupportedDelivery (targetString e.1.1 e.1.2 e.2)))
        ∧ (e.1.2 ∈ sup → e.1.2 = DeliverySMTP → MatchString reEmail e.2 = false →
           validateTargetConfig order sup cnf
           = Some (ValError errKindInvalidEmail (targetString e.1.1 e.1.2 e.2))))
     ∧ (validateTargetConfig order sup cnf = None
        ↔ ∀ e, hasTriple cnf e → passes sup e)).
Proof.
  intros Hv. split.
  - intros Hsize. unfold validateTargetConfig. by rewrite decide_True.
  - intros Hsize. split; [|by apply validateTargetConfig_nil].
    rewrite validateTargetConfig_triples by done.
    intros pre e post Heq Hpre. rewrite Heq.
    assert (Hpre' : Forall (λ y, checkTriple sup y = None) pre).
    { eapply Forall_impl; [exact Hpre|]. intros y Hy. by apply checkTriple_None. }
    split.
    + intros Hn. apply rangeErr_first; [done|]. by apply checkTriple_unsupported.
    + intros Hin Hsmtp Hre. apply rangeErr_first; [done|]. by apply checkTriple_email.
Qed.

(** ** Targets of a built configuration *)

Lemma addTo_not_nil ds d r : addTo ds d r ≠ [].
Proof. destruct ds; simpl; [done|]. by case_decide. Qed.

Lemma addEntries_inhabited es m : inhabited m → inhabited (foldl addEntry m es).
Proof.
  revert m. induction es as [|e es IH]; intros m Hm; simpl; [done|].
  apply IH. intros t tgt Hlk. rewrite addEntry_lookup in Hlk.
  case_decide; [|by eapply Hm]. simplify_eq.
  rewrite addRecipient_addTo. apply addTo_not_nil.
Qed.

Lemma constructed_inhabited cnf : constructed cnf → inhabited (targetsOf cnf).
Proof.
  induction 1 as [|cnf s _ IH].
  - intros t tgt H. change (targetsOf zeroConfig) with (∅ : gmap string target) in H.
    by rewrite lookup_empty in H.
  - destruct (Decode_targets cnf s) as (es & _ & ->). by apply addEntries_inhabited.
Qed.



(** ** The handler *)

Section HandlerFacts.
Context {World : Type}.
Variable quote : string → string.
Variable jsonDecode : string → option Message.
Implicit Types (s : serving World) (g : goroutine World) (cnf : TargetsConfig)
  (reg : gmap DeliveryType (Sender World)).


(** A rejected request is answered at once: nothing is started. *)
Lemma ServeHTTP_rejects cnf reg w r wd :
  requestError jsonDecode cnf r →
  ∃ body log, ServeHTTP quote jsonDecode cnf reg w r wd = reject w wd body log.
Proof.
  intros Herr. unfold ServeHTTP.
  case_decide as Ht; [by eexists _, _|].
  destruct (targetsOf cnf !! queryTarget r) as [tgt|] eqn:Hlk; [|by eexists _, _].
  destruct (reqBody r) as [body|] eqn:Hb; [|by eexists _, _].
  destruct (jsonDecode body) as [msg|] eqn:Hj; [|by eexists _, _].
  case_decide as Htext; [by eexists _, _|].
  exfalso. destruct Herr as [?|[?|[?|(b & Hb' & [Hn|(m & Hm & Hm')])]]];
    try done; simplify_eq.
Qed.

Lemma Returned_no_step s s' : ph s = Returned → ¬ step s s'.
Proof. intros Hph Hstep. inversion Hstep; congruence. Qed.

Lemma Returned_final s s' : ph s = Returned → rtc step s s' → s' = s.
Proof.
  intros Hph Hrtc. destruct Hrtc as [|s s1 s2 Hstep _]; [done|].
  by apply Returned_no_step in Hstep.
Qed.

(** C6. A request without a target parameter is answered 400 with the
    text "Parameter 'target' is missed" (the body holds it with its line
    ends, which the handler test trims); one that names an unknown target
    is answered 400 with a body that quotes the name; one without a body,
    with a body that is not a JSON message, or with an empty text is
    answered 400.  In each of these cases the handler has returned with
    no goroutine started, and no run of the scheduler ever calls a
    sender. *)
Theorem request_errors_answer_400_without_sending cnf reg (r : Request) (wd : World) :
  let s0 := ServeHTTP quote jsonDecode cnf reg newRecorder r wd in
  (queryTarget r = "" →
     Code (resp s0) = 400
     ∧ bodyText (resp s0) = "Parameter 'target' is missed"
     ∧ Body (resp s0) = "Parameter 'target' is missed" +:+ lf +:+ lf)
  ∧ (queryTarget r ≠ "" → targetsOf cnf !! queryTarget r = None →
     Code (resp s0) = 400
     ∧ Body (resp s0) = "Unknown target " +:+ quote (queryTarget r) +:+ lf)
  ∧ (requestError jsonDecode cnf r →
     Code (resp s0) = 400
     ∧ ph s0 = Returned ∧ pending s0 = [] ∧ sent s0 = [] ∧ world s0 = wd
     ∧ ∀ s, rtc step s0 s → s = s0 ∧ sent s = [] ∧ world s = wd).
Proof.
  intros s0. split; [|split].
  - intros Ht. subst s0. unfold ServeHTTP. rewrite decide_True by done.
    split; [done|]. split; [|done]. vm_compute. reflexivity.
  - intros Ht Hlk. subst s0. unfold ServeHTTP.
    rewrite decide_False by done. rewrite Hlk. done.
  - intros Herr.
    destruct (ServeHTTP_rejects cnf reg newRecorder r wd Herr) as (body & log & Heq).
    subst s0. rewrite Heq. repeat split; try done.
    all: apply Returned_final in H; [by subst|done].
Qed.

(** *** An accepted request *)







End HandlerFacts.

(** ** The subject of the mail *)

Section SubjectFacts.
Context {World : Type}.
Variable blackfriday_Run : string → string.
Variable strip_StripTags : string → string.
Implicit Types (s : SMTPSender World) (msg : Message).








End SubjectFacts.

(** * The cases of the package's tests *)

Module TestCases.
Import TestFixtures.

Example decode_two_deliveries :
  Decode zeroConfig "test:smtp:email@example.com,test:sms:+79999999999"
  = (Config (Some {[ "test" := Target [Delivery "smtp" ["email@example.com"];
                                       Delivery "sms" ["+79999999999"]] ]}), None).
Proof. vm_compute. reflexivity. Qed.

Example reEmail_accepts : MatchString reEmail "email@example.com" = true.
Proof. vm_compute. reflexivity. Qed.

Example reEmail_rejects : MatchString reEmail "noemail" = false.
Proof. vm_compute. reflexivity. Qed.

(** ** Stand-ins for the library functions *)

Lemma dropLast_snoc (s : string) c : dropLast (s +:+ String c "") = s.
Proof.
  induction s as [|a s IH]; [done|].
  change (String a s +:+ String c "") with (String a (s +:+ String c "")).
  simpl. rewrite IH. by destruct s.
Qed.

Lemma unquote_quote s : unquotePlain (quotePlain s) = s.
Proof. unfold quotePlain, dquote. simpl. apply dropLast_snoc. Qed.

(** ** [TestSMTPSender] *)

Example test_all_errors :
  (runTest threeRetries [errNetTemp1; errNetTemp2; errNet]).1 = (Some errNet, (3, [])).
Proof. vm_compute. reflexivity. Qed.

Example test_partially_failed :
  (runTest threeRetries [errNetTemp1; errNetTemp2]).1 = (None, (3, [])).
Proof. vm_compute. reflexivity. Qed.

Example test_ok : (runTest threeRetries []).1 = (None, (1, [])).
Proof. vm_compute. reflexivity. Qed.

(** The retry policy on the second case of the test. *)
Lemma Send_retry_policy_partially_failed :
  Retries (conf (testSender threeRetries)) ≠ []
  ∧ (runTest threeRetries [errNetTemp1; errNetTemp2]).1.1 = None
  ∧ attempts (runTest threeRetries [errNetTemp1; errNetTemp2]).2 = 3.
Proof.
  split; [done|].
  pose proof (Send_retry_policy renderTitleAndBody (dropTags false)
                (testSender threeRetries) ["email@example.com"] (Msg "" "")
                (0, [errNetTemp1; errNetTemp2])) as H.
  cbv zeta in H. destruct (H ltac:(done)) as (_ & _ & _ & H3).
  destruct (H3 eq_refl) as [Hok _].
  exact (Hok errNetTemp1 errNetTemp2 eq_refl eq_refl eq_refl eq_refl eq_refl).
Defined.

(** C3, at an input.  With [Retries] empty the sender of the test returns
    [nil] although [sendfn] was never called: the counter is still 0 and
    the error that was waiting is still there. *)
Theorem Send_without_retries_sends_nothing :
  runTest [] [errNet] = (None, (0, [errNet]), [])
  ∧ attempts (runTest [] [errNet]).2 = 0.
Proof. split; reflexivity. Qed.


(** ** [TestTargetsConfigDecode] *)

Example test_empty_target : Decode zeroConfig "" = (zeroConfig, None).
Proof. reflexivity. Qed.

Example test_without_one_field :
  (Decode zeroConfig "test:smtp").2 = Some (ValError errKindInvTargetSyntax "test:smtp").
Proof. vm_compute. reflexivity. Qed.

Example test_empty_fields :
  (Decode zeroConfig "::").2 = Some (ValError errKindInvTargetSyntax "::").
Proof. vm_compute. reflexivity. Qed.

Example test_two_recipients :
  Decode zeroConfig twoRecipients
  = (Config (Some {[ "test" := Target [Delivery "smtp" ["email1@example.com";
                                                     "email2@example.com"]] ]}), None).
Proof. vm_compute. reflexivity. Qed.


(** A failed decode, as the receiver is after it. *)
Lemma Decode_keeps_first_entry :
  Decode zeroConfig brokenTail
  = (Config (Some (foldl addEntry ∅ (parsed [oneTarget]))),
     Some (ValError errKindInvTargetSyntax "test"))
  ∧ hasTriple (Decode zeroConfig brokenTail).1 ("test", "smtp", "email@example.com").
Proof.
  assert (Hsplit : Split brokenTail comma = [oneTarget] ++ "test" :: [])
    by (vm_compute; reflexivity).
  assert (Hwf : Forall wellFormed [oneTarget]).
  { constructor; [|constructor]. apply splitEntry_wellFormed. vm_compute. by eexists. }
  assert (Hbad : ¬ wellFormed "test").
  { apply splitEntry_None. vm_compute. reflexivity. }
  destruct (Decode_keeps_entries_before_error zeroConfig brokenTail
              [oneTarget] "test" [] ltac:(done) Hsplit Hwf Hbad) as (Hdec & _ & Hin & _).
  split; [exact Hdec|]. apply Hin. vm_compute. left.
Defined.

(** Printing and decoding again the case with two deliveries. *)
Lemma Decode_MarshalJSON_two_deliveries :
  ∃ cnf', Decode zeroConfig
            (unquotePlain (MarshalJSON quotePlain ["test"] (Decode zeroConfig twoDeliveries).1))
          = (cnf', None)
          ∧ ∀ e, hasTriple cnf' e ↔ hasTriple (Decode zeroConfig twoDeliveries).1 e.
Proof.
  apply (Decode_MarshalJSON_same_triples quotePlain unquotePlain).
  - exact unquote_quote.
  - apply constructed_Decode, constructed_zero.
  - unfold visits. vm_compute. reflexivity.
Defined.

(** ** [TestNewHandler] *)

Example test_empty_targets :
  validateTargetConfig [] supported (Decode zeroConfig "").1
  = Some (ValError errKindEmptyTargets "").
Proof. vm_compute. reflexivity. Qed.

Example test_invalid_email :
  validateTargetConfig ["test"] supported (Decode zeroConfig "test:smtp:noemail").1
  = Some (ValError errKindInvalidEmail "test:smtp:noemail").
Proof. vm_compute. reflexivity. Qed.

Example test_all_ok :
  validateTargetConfig ["test"] supported (Decode zeroConfig oneTarget).1 = None.
Proof. vm_compute. reflexivity. Qed.

(** The validator on the case with a delivery type that is not supported. *)
Lemma validateTargetConfig_not_supported :
  validateTargetConfig ["test"] supported
    (Decode zeroConfig "test:nosmtp:email@example.com").1
  = Some (ValError errKindUnsupportedDelivery "test:nosmtp:email@example.com").
Proof.
  pose (cnf := (Decode zeroConfig "test:nosmtp:email@example.com").1).
  assert (Hv : visits (targetsOf cnf) ["test"]) by (vm_compute; reflexivity).
  destruct (validateTargetConfig_first_failure ["test"] supported cnf Hv) as [_ H].
  assert (Hsize : size (targetsOf cnf) ≠ 0) by (vm_compute; lia).
  destruct (H Hsize) as [Hfirst _].
  destruct (Hfirst [] ("test", "nosmtp", "email@example.com") []) as [Hun _].
  - vm_compute. reflexivity.
  - constructor.
  - apply Hun. vm_compute. intros Hin. apply list_elem_of_singleton in Hin. discriminate.
Defined.

(** ** [TestHandleSendMessage] *)

Example test_without_body :
  let s := serve (MkRequest "test" None) in
  Code (resp s) = 400 ∧ bodyText (resp s) = "No body".
Proof. vm_compute. split; reflexivity. Qed.

Example test_invalid_body :
  let s := serve (MkRequest "test" (Some "Invalid body")) in
  Code (resp s) = 400 ∧ bodyText (resp s) = "Invalid body".
Proof. vm_compute. split; reflexivity. Qed.

Example test_without_text :
  let s := serve (MkRequest "test" (Some (bodyOf "Test Subject" ""))) in
  Code (resp s) = 400 ∧ bodyText (resp s) = "Missing required fields: text".
Proof. vm_compute. split; reflexivity. Qed.

Example test_unknown_target :
  let s := serve (MkRequest "badtarget" (Some (bodyOf "Test Subject" "Test Message"))) in
  Code (resp s) = 400 ∧ bodyText (resp s) = "Unknown target " +:+ dquote "badtarget".
Proof. vm_compute. split; reflexivity. Qed.

(** The case without a target. *)
Lemma request_without_target :
  Code (resp (serve (MkRequest "" (Some "Parameter 'target' is missed")))) = 400
  ∧ bodyText (resp (serve (MkRequest "" (Some "Parameter 'target' is missed"))))
    = "Parameter 'target' is missed"
  ∧ ∀ s, rtc step (serve (MkRequest "" (Some "Parameter 'target' is missed"))) s →
         sent s = [].
Proof.
  pose proof (request_errors_answer_400_without_sending quotePlain decodeBody
                testConfig testSenders
                (MkRequest "" (Some "Parameter 'target' is missed")) None) as H.
  cbv zeta in H. destruct H as (Hmiss & _ & Herr).
  destruct (Hmiss eq_refl) as (Hcode & Htext & _).
  split; [exact Hcode|]. split; [exact Htext|].
  intros s Hs. destruct (Herr (or_introl eq_refl)) as (_ & _ & _ & _ & _ & Hrun).
  by destruct (Hrun s Hs) as (_ & ? & _).
Defined.


End TestCases.

(** * Further properties *)

(** ** Decoding a list in two parts *)

Lemma Split_append s1 s2 c :
  Split (s1 +:+ String c s2) c = Split s1 c ++ Split s2 c.
Proof.
  induction s1 as [|a s1 IH]; simpl.
  - by rewrite decide_True.
  - case_decide; [by rewrite IH|].
    rewrite IH. pose proof (Split_not_nil s1 c). by destruct (Split s1 c).
Qed.

Lemma decodeEntries_app vs1 vs2 (m : gmap string target) :
  decodeEntries (vs1 ++ vs2) m
  = match decodeEntries vs1 m with
    | (m', None) => decodeEntries vs2 m'
    | failed => failed
    end.
Proof.
  revert m. induction vs1 as [|v vs1 IH]; intros m; simpl; [done|].
  destruct (splitEntry v); [apply IH|done].
Qed.

Lemma append_not_empty (s1 s2 : string) : s1 ≠ "" → s1 +:+ s2 ≠ "".
Proof. by destruct s1. Qed.

(** X1. Decoding two lists joined by a comma is decoding the first and
    then, into the receiver it leaves, the second; when the first fails,
    its error and its receiver are the result and the second is not
    read. *)
Theorem Decode_joined cnf (s1 s2 : string) :
  s1 ≠ "" → s2 ≠ "" →
  Decode cnf (s1 +:+ "," +:+ s2)
  = match Decode cnf s1 with
    | (cnf1, None) => Decode cnf1 s2
    | failed => failed
    end.
Proof.
  intros H1 H2.
  rewrite (Decode_nonempty cnf s1 H1), (Decode_nonempty _ (s1 +:+ "," +:+ s2))
    by by apply append_not_empty.
  change (s1 +:+ "," +:+ s2) with (s1 +:+ String comma s2).
  rewrite Split_append, decodeEntries_app.
  destruct (decodeEntries (Split s1 comma) (targetsOf cnf)) as [m1 [err|]]; simpl; [done|].
  by rewrite (Decode_nonempty _ s2 H2).
Qed.

(** ** What [Decode] keeps of its receiver *)

Lemma keptIn_refl ds : keptIn ds ds.
Proof. intros i d Hd. by exists d. Qed.

Lemma keptIn_trans ds1 ds2 ds3 : keptIn ds1 ds2 → keptIn ds2 ds3 → keptIn ds1 ds3.
Proof.
  intros H12 H23 i d Hd.
  destruct (H12 i d Hd) as (d2 & Hd2 & Hn2 & Hp2).
  destruct (H23 i d2 Hd2) as (d3 & Hd3 & Hn3 & Hp3).
  exists d3. split; [done|]. split; [congruence|by etrans].
Qed.

Lemma addTo_keptIn ds d r : keptIn ds (addTo ds d r).
Proof.
  induction ds as [|x ds IH]; intros i y Hy; [done|]. simpl.
  case_decide.
  - destruct i as [|i]; simpl in *.
    + simplify_eq. eexists. split; [done|]. split; [done|]. by apply prefix_app_r.
    + by exists y.
  - destruct i as [|i]; simpl in *; [by exists y|]. by apply IH.
Qed.

Lemma addEntries_keptIn es (m : gmap string target) t tgt :
  m !! t = Some tgt →
  ∃ tgt', foldl addEntry m es !! t = Some tgt'
          ∧ keptIn (deliveries tgt) (deliveries tgt').
Proof.
  revert m tgt. induction es as [|e es IH]; intros m tgt Hlk; simpl.
  - exists tgt. split; [done|apply keptIn_refl].
  - destruct (decide (e.1.1 = t)) as [Ht|Ht].
    + destruct (IH (addEntry m e) (addRecipient tgt e.1.2 e.2)) as (tgt' & Hlk' & Hk).
      { rewrite addEntry_lookup, decide_True by done. subst t. by rewrite Hlk. }
      exists tgt'. split; [done|]. eapply keptIn_trans; [|exact Hk].
      rewrite addRecipient_addTo. apply addTo_keptIn.
    + apply IH. by rewrite addEntry_lookup, decide_False.
Qed.

(** X2. [Decode] only adds to its receiver, whether it fails or not: a
    target that was there is still there, each of its deliveries is at the
    position it had, under the same name, and the recipients it had are the
    first of its list; so every triple of the receiver is still one. *)
Theorem Decode_keeps_receiver cnf (s : string) t tgt :
  targetsOf cnf !! t = Some tgt →
  (∃ tgt', targetsOf (Decode cnf s).1 !! t = Some tgt'
           ∧ keptIn (deliveries tgt) (deliveries tgt'))
  ∧ (∀ e, hasTriple cnf e → hasTriple (Decode cnf s).1 e).
Proof.
  intros Hlk. destruct (Decode_targets cnf s) as (es & _ & Heq). split.
  - rewrite Heq. by apply addEntries_keptIn.
  - intros e He. unfold hasTriple. rewrite Heq. apply addEntries_triple. by left.
Qed.

(** ** Decoding what [MarshalJSON] printed, exactly *)

Lemma rangeMap_fst (m : gmap string target) order :
  (∀ k, k ∈ order → is_Some (m !! k)) → (rangeMap order m).*1 = order.
Proof.
  induction order as [|k order IH]; intros Hall; [done|].
  destruct (Hall k) as [tgt Hk]; [left|].
  unfold rangeMap in *. simpl. rewrite Hk. simpl. f_equal.
  apply IH. intros k' Hk'. apply Hall. by right.
Qed.

Lemma visits_is_Some (m : gmap string target) order k :
  visits m order → k ∈ order → is_Some (m !! k).
Proof. intros Hv Hk. rewrite Hv in Hk. by apply elem_of_dom, elem_of_elements. Qed.

Lemma visits_NoDup (m : gmap string target) order : visits m order → NoDup order.
Proof. intros Hv. rewrite Hv. apply NoDup_elements. Qed.

Lemma rangeMap_NoDup_fst (m : gmap string target) order :
  visits m order → NoDup (rangeMap order m).*1.
Proof.
  intros Hv. rewrite rangeMap_fst; [by eapply visits_NoDup|].
  intros k Hk. by eapply visits_is_Some.
Qed.

(** The pairs visited are those of the map. *)
Lemma rangeMap_list_to_map (m : gmap string target) order :
  visits m order → list_to_map (rangeMap order m) = m.
Proof.
  intros Hv. apply map_eq. intros k. apply option_eq. intros tgt.
  rewrite <- elem_of_list_to_map by by apply rangeMap_NoDup_fst.
  by apply rangeMap_elem.
Qed.

(** The entries of one delivery, added to deliveries that do not have its
    name, put it after them. *)
Lemma addTo_fresh ds d r : d ∉ name <$> ds → addTo ds d r = ds ++ [Delivery d [r]].
Proof.
  induction ds as [|x ds IH]; intros Hn; [done|].
  apply not_elem_of_cons in Hn as [Hx Hn]. simpl.
  rewrite decide_False by done. by rewrite IH.
Qed.

Lemma addTo_last ds d rs r :
  d ∉ name <$> ds →
  addTo (ds ++ [Delivery d rs]) d r = ds ++ [Delivery d (rs ++ [r])].
Proof.
  induction ds as [|x ds IH]; intros Hn; simpl.
  - by rewrite decide_True.
  - apply not_elem_of_cons in Hn as [Hx Hn].
    rewrite decide_False by done. by rewrite IH.
Qed.

Lemma addPairs_recipients ds k d rs rs' :
  d ∉ name <$> ds →
  foldl addPair (ds ++ [Delivery d rs]) ((λ r, (k, d, r)) <$> rs')
  = ds ++ [Delivery d (rs ++ rs')].
Proof.
  intros Hn. revert rs. induction rs' as [|r rs' IH]; intros rs; simpl.
  - by rewrite app_nil_r.
  - unfold addPair at 2. simpl. rewrite addTo_last by done.
    rewrite IH. by rewrite <- app_assoc.
Qed.

Lemma triplesOfTarget_cons k dl ds :
  triplesOfTarget (k, Target (dl :: ds))
  = ((λ r, (k, name dl, r)) <$> recipients dl) ++ triplesOfTarget (k, Target ds).
Proof.
  unfold triplesOfTarget. cbn [fst snd deliveries]. rewrite bind_cons. by f_equal.
Qed.

Lemma addPairs_target k acc ds :
  NoDup (name <$> (acc ++ ds)) →
  Forall (λ dl, recipients dl ≠ []) ds →
  foldl addPair acc (triplesOfTarget (k, Target ds)) = acc ++ ds.
Proof.
  revert acc. induction ds as [|dl ds IH]; intros acc Hnd Hpop.
  - by rewrite app_nil_r.
  - apply Forall_cons in Hpop as [Hdl Hpop].
    rewrite triplesOfTarget_cons, foldl_app.
    assert (Hfresh : name dl ∉ name <$> acc).
    { rewrite fmap_app, fmap_cons in Hnd. apply NoDup_app in Hnd as (_ & Hdisj & _).
      intros Hin. apply (Hdisj _ Hin). left. }
    destruct (recipients dl) as [|r rs] eqn:Hr; [done|].
    rewrite fmap_cons. cbn [foldl].
    change (addPair acc (k, name dl, r)) with (addTo acc (name dl) r).
    rewrite addTo_fresh by done.
    rewrite (addPairs_recipients acc k (name dl) [r] rs Hfresh).
    change ([r] ++ rs) with (r :: rs). rewrite <- Hr.
    replace (Delivery (name dl) (recipients dl)) with dl by by destruct dl.
    rewrite IH; [by rewrite <- app_assoc|by rewrite <- app_assoc|done].
Qed.

(** A run of entries for one target acts on that target alone. *)
Lemma addEntries_one_target (m : gmap string target) k es :
  Forall (λ e, e.1.1 = k) es → es ≠ [] →
  foldl addEntry m es
  = <[k := Target (foldl addPair (deliveries (default (Target []) (m !! k))) es)]> m.
Proof.
  revert m. induction es as [|e es IH]; intros m Hall Hne; [done|].
  apply Forall_cons in Hall as [He Hall]. simpl.
  assert (Hadd : addEntry m e = <[k := Target (addPair (deliveries (default (Target []) (m !! k))) e)]> m).
  { destruct e as [[t d] r]. simpl in He. subst t. unfold addEntry, addPair. simpl.
    f_equal. rewrite <- addRecipient_addTo.
    by destruct (addRecipient (default (Target []) (m !! k)) d r). }
  destruct es as [|e' es'].
  - simpl. exact Hadd.
  - rewrite IH by done. rewrite Hadd, lookup_insert_eq. simpl.
    by rewrite insert_insert_eq.
Qed.

Lemma addEntries_whole_target (m : gmap string target) k tgt :
  m !! k = None →
  deliveries tgt ≠ [] →
  NoDup (name <$> deliveries tgt) →
  Forall (λ dl, recipients dl ≠ []) (deliveries tgt) →
  foldl addEntry m (triplesOfTarget (k, tgt)) = <[k := tgt]> m.
Proof.
  intros Hk Hne Hnd Hpop. destruct tgt as [ds]. simpl in *.
  rewrite (addEntries_one_target m k).
  - rewrite Hk. simpl. by rewrite (addPairs_target k [] ds).
  - apply Forall_forall. intros e He. by apply triplesOfTarget_elem in He as [? _].
  - destruct ds as [|dl ds]; [done|]. rewrite triplesOfTarget_cons.
    apply Forall_cons in Hpop as [Hdl _]. by destruct (recipients dl).
Qed.

Lemma addEntries_targets (kvs : list (string * target)) (m : gmap string target) :
  NoDup kvs.*1 →
  (∀ k, k ∈ kvs.*1 → m !! k = None) →
  Forall (λ kv, deliveries kv.2 ≠ [] ∧ NoDup (name <$> deliveries kv.2)
                ∧ Forall (λ dl, recipients dl ≠ []) (deliveries kv.2)) kvs →
  foldl addEntry m (kvs ≫= triplesOfTarget) = list_to_map kvs ∪ m.
Proof.
  revert m. induction kvs as [|[k tgt] kvs IH]; intros m Hnd Hfree Hgood.
  - simpl. by rewrite (left_id_L ∅ (∪)).
  - rewrite fmap_cons in Hnd. apply NoDup_cons in Hnd as [Hk Hnd].
    apply Forall_cons in Hgood as [(Hne & Hu & Hp) Hgood]. simpl in Hne, Hu, Hp.
    rewrite bind_cons, foldl_app.
    rewrite addEntries_whole_target; [|apply Hfree; left|done..].
    rewrite IH; [|done| |done].
    + rewrite list_to_map_cons, <- insert_union_l. symmetry. apply insert_union_r.
      by apply not_elem_of_list_to_map_1.
    + intros k' Hk'. rewrite lookup_insert_ne; [apply Hfree; by right|].
      by intros ->.
Qed.

(** What decoding the output of [MarshalJSON] gives, as a run of entries. *)
Lemma Decode_MarshalJSON_entries (quote unquote : string → string) cnf order :
  (∀ s, unquote (quote s) = s) →
  constructed cnf →
  visits (targetsOf cnf) order →
  Decode zeroConfig (unquote (MarshalJSON quote order cnf))
  = (if decide (triplesIn order cnf = []) then zeroConfig
     else Config (Some (foldl addEntry ∅ (triplesIn order cnf))), None).
Proof.
  intros Hq Hc Hv. unfold MarshalJSON, marshalEntries. rewrite Hq.
  set (ts := triplesIn order cnf).
  assert (Hclean : Forall cleanTriple ts).
  { apply Forall_forall. intros e He. apply (constructed_clean cnf e Hc).
    by apply triplesIn_elem in He. }
  destruct (parsed_targetStrings ts Hclean) as [Hwf Hparsed].
  case_decide as Ets; [by rewrite Ets|].
  set (vv := (λ e : string * DeliveryType * string, targetString e.1.1 e.1.2 e.2) <$> ts) in *.
  assert (Hvv : vv ≠ []).
  { subst vv. intros H. by apply fmap_nil_inv in H. }
  assert (Hj : Join vv "," ≠ "").
  { intros Hj. apply Hvv. eapply Join_nil_iff; [|exact Hj].
    subst vv. apply Forall_fmap. eapply Forall_impl; [exact Hclean|].
    intros e He. by apply targetString_not_empty. }
  assert (Hcomma : Forall (λ v, contains comma v = false) vv).
  { subst vv. apply Forall_fmap. eapply Forall_impl; [exact Hclean|].
    intros e He. by apply targetString_no_comma. }
  rewrite Decode_nonempty by done.
  change ("," : string) with (String comma "").
  rewrite Split_Join by done.
  rewrite decodeEntries_wellFormed by done. by rewrite Hparsed.
Qed.

(** X3. For a configuration built by [Decode] that has a target, decoding
    into the zero value what [MarshalJSON] printed gives the configuration
    back as it was: the same targets, each with its deliveries in their
    order and their recipients in theirs, whatever the order in which the
    map was ranged over.  Without a target the output is the empty string,
    which decodes to the zero value. *)
Theorem Decode_MarshalJSON_identity
    (quote unquote : string → string) (cnf : TargetsConfig) (order : list string) :
  (∀ s, unquote (quote s) = s) →
  constructed cnf →
  visits (targetsOf cnf) order →
  (size (targetsOf cnf) ≠ 0 →
     Decode zeroConfig (unquote (MarshalJSON quote order cnf)) = (cnf, None))
  ∧ (size (targetsOf cnf) = 0 →
     unquote (MarshalJSON quote order cnf) = ""
     ∧ Decode zeroConfig (unquote (MarshalJSON quote order cnf)) = (zeroConfig, None)).
Proof.
  intros Hq Hc Hv.
  pose proof (constructed_inhabited cnf Hc) as Hin.
  pose proof (constructed_populated cnf Hc) as Hpop.
  pose proof (constructed_uniqueNames cnf Hc) as Hun.
  assert (Hfold : foldl addEntry ∅ (triplesIn order cnf) = targetsOf cnf).
  { unfold triplesIn. rewrite addEntries_targets.
    - rewrite (right_id_L ∅ (∪)). by apply rangeMap_list_to_map.
    - by apply rangeMap_NoDup_fst.
    - intros k _. apply lookup_empty.
    - apply Forall_forall. intros [k tgt] Hkv. apply (rangeMap_elem _ _ _ _ Hv) in Hkv.
      simpl. split; [by eapply Hin|]. split; [by eapply Hun|by eapply Hpop]. }
  split.
  - intros Hsize. rewrite (Decode_MarshalJSON_entries quote unquote cnf order Hq Hc Hv).
    case_decide as Ets.
    + exfalso. apply Hsize. rewrite <- Hfold, Ets. simpl. apply map_size_empty.
    + rewrite Hfold. f_equal. destruct cnf as [[m|]]; [done|].
      exfalso. apply Hsize. apply map_size_empty.
  - intros Hsize. apply map_size_empty_inv in Hsize.
    assert (Ets : triplesIn order cnf = []).
    { destruct (triplesIn order cnf) as [|e ts] eqn:E; [done|].
      assert (He : hasTriple cnf e) by (apply (triplesIn_elem order cnf e Hv); rewrite E; left).
      destruct He as (tgt & dl & Hlk & _). rewrite Hsize in Hlk.
      by rewrite lookup_empty in Hlk. }
    split.
    + unfold MarshalJSON, marshalEntries. by rewrite Hq, Ets.
    + rewrite (Decode_MarshalJSON_entries quote unquote cnf order Hq Hc Hv).
      by rewrite decide_True.
Qed.

(** ** The order of the output of [MarshalJSON] *)

Lemma rangeMap_Permutation (m : gmap string target) o1 o2 :
  visits m o1 → visits m o2 → rangeMap o1 m ≡ₚ rangeMap o2 m.
Proof. intros H1 H2. unfold rangeMap. by rewrite H1, H2. Qed.

(** X4. The entries [MarshalJSON] prints do not depend on the order in
    which Go ranges over the map, up to their own order: two runs print
    permutations of the same entries, one for each triple of the
    configuration. *)
Theorem MarshalJSON_entries_up_to_order (cnf : TargetsConfig) (o1 o2 : list string) :
  visits (targetsOf cnf) o1 →
  visits (targetsOf cnf) o2 →
  marshalEntries o1 cnf ≡ₚ marshalEntries o2 cnf
  ∧ (∀ v, v ∈ marshalEntries o1 cnf
          ↔ ∃ e, hasTriple cnf e ∧ v = targetString e.1.1 e.1.2 e.2).
Proof.
  intros H1 H2. split.
  - unfold marshalEntries, triplesIn. by rewrite (rangeMap_Permutation _ o1 o2).
  - intros v. unfold marshalEntries. rewrite list_elem_of_fmap. split.
    + intros (e & -> & He). exists e. split; [by apply (triplesIn_elem o1)|done].
    + intros (e & He & ->). exists e. split; [done|by apply triplesIn_elem].
Qed.

(** ** The verdict of the validator *)

Lemma rangeErr_Some {A E} (f : A → option E) l err :
  rangeErr f l = Some err →
  ∃ pre x post, l = pre ++ x :: post ∧ Forall (λ y, f y = None) pre ∧ f x = Some err.
Proof.
  induction l as [|x l IH]; simpl; [done|].
  destruct (f x) as [e|] eqn:Hx.
  - intros [= ->]. by exists [], x, l.
  - intros H. destruct (IH H) as (pre & y & post & -> & Hpre & Hy).
    exists (x :: pre), y, post. split; [done|]. split; [by constructor|done].
Qed.

Lemma checkTriple_Some sup e err :
  checkTriple sup e = Some err →
  ¬ passes sup e
  ∧ etarget err = targetString e.1.1 e.1.2 e.2
  ∧ (kind err = errKindUnsupportedDelivery ∧ e.1.2 ∉ sup
     ∨ kind err = errKindInvalidEmail ∧ e.1.2 ∈ sup ∧ e.1.2 = DeliverySMTP
       ∧ MatchString reEmail e.2 = false).
Proof.
  intros H. split.
  { intros Hp. apply checkTriple_None in Hp. congruence. }
  unfold checkTriple, validateRecipient in H. simpl in H.
  destruct (deliverySupported sup e.1.2) eqn:Hs; simpl in H.
  - apply deliverySupported_elem in Hs. case_decide as Hsmtp; [|done].
    destruct (MatchString reEmail e.2) eqn:Hre; simpl in H; [done|].
    injection H as <-. simpl. split; [done|]. by right.
  - injection H as <-. simpl. split; [done|]. left. split; [done|].
    intros Hin. apply deliverySupported_elem in Hin. congruence.
Qed.

Lemma passes_same_set sup1 sup2 e :
  (∀ d, d ∈ sup1 ↔ d ∈ sup2) → passes sup1 e ↔ passes sup2 e.
Proof. intros H. unfold passes. by rewrite H. Qed.

(** X5. Whether [validateTargetConfig] returns an error depends neither
    on the order in which the targets are ranged over nor on the order (or
    repetitions) of the supported delivery types; only which failing triple
    is reported does.  An error other than [errKindEmptyTargets] always
    reports a triple of the configuration that does not pass, with its text
    and with the kind of its failure. *)
Theorem validateTargetConfig_verdict
    (o1 o2 : list string) (sup1 sup2 : list DeliveryType) (cnf : TargetsConfig) :
  visits (targetsOf cnf) o1 →
  visits (targetsOf cnf) o2 →
  (∀ d, d ∈ sup1 ↔ d ∈ sup2) →
  (validateTargetConfig o1 sup1 cnf = None ↔ validateTargetConfig o2 sup2 cnf = None)
  ∧ (∀ err, validateTargetConfig o1 sup1 cnf = Some err →
       (size (targetsOf cnf) = 0 ∧ err = ValError errKindEmptyTargets "")
       ∨ (size (targetsOf cnf) ≠ 0
          ∧ ∃ e, hasTriple cnf e ∧ ¬ passes sup1 e
                 ∧ etarget err = targetString e.1.1 e.1.2 e.2
                 ∧ (kind err = errKindUnsupportedDelivery ∧ e.1.2 ∉ sup1
                    ∨ kind err = errKindInvalidEmail ∧ e.1.2 ∈ sup1
                      ∧ e.1.2 = DeliverySMTP ∧ MatchString reEmail e.2 = false))).
Proof.
  intros H1 H2 Hsup.
  destruct (decide (size (targetsOf cnf) = 0)) as [Hz|Hnz].
  - split.
    + unfold validateTargetConfig. by rewrite !decide_True.
    + intros err Herr. left. split; [done|].
      unfold validateTargetConfig in Herr. rewrite decide_True in Herr by done.
      by injection Herr.
  - split.
    + rewrite !validateTargetConfig_nil by done. split; intros H e He.
      * apply (passes_same_set sup1 sup2 e Hsup). by apply H.
      * apply (passes_same_set sup1 sup2 e Hsup). by apply H.
    + intros err Herr. right. split; [done|].
      rewrite validateTargetConfig_triples in Herr by done.
      apply rangeErr_Some in Herr as (pre & e & post & Heq & _ & He).
      exists e. split.
      * apply (triplesIn_elem o1 cnf e H1). rewrite Heq.
        apply elem_of_app. right. left.
      * by apply checkTriple_Some.
Qed.

(** ** [NewHandler] *)

Lemma supported_elem {World} (reg : gmap DeliveryType (Sender World)) sorder d :
  sorder ≡ₚ elements (dom reg) →
  d ∈ omap (λ v, (λ _, v) <$> reg !! v) sorder ↔ is_Some (reg !! d).
Proof.
  intros Hs. rewrite list_elem_of_omap. split.
  - intros (v & _ & Hv). destruct (reg !! v) eqn:E; simpl in Hv; [|done].
    simplify_eq. by eexists.
  - intros [snd Hd]. exists d. split; [|by rewrite Hd].
    rewrite Hs. apply elem_of_elements, elem_of_dom. by eexists.
Qed.

(** What [NewHandler] accepts. *)
Lemma NewHandler_characterized {World} (sorder : list DeliveryType) (order : list string)
    (cnf : TargetsConfig) (reg : gmap DeliveryType (Sender World)) :
  sorder ≡ₚ elements (dom reg) →
  visits (targetsOf cnf) order →
  (∀ h, NewHandler sorder order cnf reg = inl h
        ↔ h = MkHandler reg cnf
          ∧ size (targetsOf cnf) ≠ 0
          ∧ ∀ e, hasTriple cnf e →
                 is_Some (reg !! e.1.2)
                 ∧ (e.1.2 = DeliverySMTP → MatchString reEmail e.2 = true))
  ∧ (size (targetsOf cnf) = 0 →
     NewHandler sorder order cnf reg = inr (ValError errKindEmptyTargets "")).
Proof.
  intros Hs Hv. unfold NewHandler.
  set (sup := omap _ sorder).
  assert (Hsup : ∀ d, d ∈ sup ↔ is_Some (reg !! d)) by (intros d; by apply supported_elem).
  split.
  - intros h. destruct (decide (size (targetsOf cnf) = 0)) as [Hz|Hnz].
    + unfold validateTargetConfig. rewrite decide_True by done. split; [done|].
      by intros (_ & ? & _).
    + pose proof (validateTargetConfig_nil order sup cnf Hv Hnz) as Hnil.
      destruct (validateTargetConfig order sup cnf) as [err|].
      * split; [done|]. intros (_ & _ & Hall).
        assert (Some err = None); [|done]. apply Hnil. intros e He.
        destruct (Hall e He) as [H1 H2]. split; [by apply Hsup|done].
      * split.
        -- intros [= <-]. split; [done|]. split; [done|]. intros e He.
           destruct (proj1 Hnil eq_refl e He) as [H1 H2]. split; [by apply Hsup|done].
        -- by intros (-> & _).
  - intros Hz. unfold validateTargetConfig. by rewrite decide_True.
Qed.

(** X6. [NewHandler] returns a handler exactly when the configuration
    has a target and each of its triples has a sender registered for its
    delivery type and, for the SMTP type, a recipient the pattern matches;
    the handler then holds the senders and the targets it was given.
    Otherwise it returns the error of the validator; for a configuration
    without targets that is [errKindEmptyTargets], whatever the senders. *)
Theorem NewHandler_accepts {World} (sorder : list DeliveryType) (order : list string)
    (cnf : TargetsConfig) (reg : gmap DeliveryType (Sender World)) :
  sorder ≡ₚ elements (dom reg) →
  visits (targetsOf cnf) order →
  (∀ h, NewHandler sorder order cnf reg = inl h
        ↔ h = MkHandler reg cnf
          ∧ size (targetsOf cnf) ≠ 0
          ∧ ∀ e, hasTriple cnf e →
                 is_Some (reg !! e.1.2)
                 ∧ (e.1.2 = DeliverySMTP → MatchString reEmail e.2 = true))
  ∧ (size (targetsOf cnf) = 0 →
     NewHandler sorder order cnf reg = inr (ValError errKindEmptyTargets "")).
Proof. apply NewHandler_characterized. Qed.

(** ** The handler [main] makes *)

(** X7. With the registry of [main], which holds the SMTP sender alone,
    a list of targets that [Decode] accepted gives a handler exactly when
    it is not empty and each of its entries names the delivery type "smtp"
    with a recipient the pattern matches. *)
Theorem mainHandler_accepts {World} (s : string) (cnf : TargetsConfig)
    (order : list string) (smtp : SMTPSender World)
    (blackfriday_Run strip_StripTags : string → string) :
  Decode zeroConfig s = (cnf, None) →
  visits (targetsOf cnf) order →
  mainHandler order cnf smtp blackfriday_Run strip_StripTags
  = inl (MkHandler (mainSenders smtp blackfriday_Run strip_StripTags) cnf)
  ↔ s ≠ ""
    ∧ ∀ e, e ∈ parsed (Split s comma) →
           e.1.2 = DeliverySMTP ∧ MatchString reEmail e.2 = true.
Proof.
  intros Hdec Hv.
  assert (Hreg : ∀ d, is_Some (mainSenders smtp blackfriday_Run strip_StripTags !! d)
                      ↔ d = DeliverySMTP).
  { intros d. unfold mainSenders. destruct (decide (d = DeliverySMTP)) as [->|Hne].
    - rewrite lookup_singleton_eq. split; [done|by eexists].
    - rewrite lookup_singleton_ne by done. split; [by intros [? ?]|done]. }
  assert (Hso : [DeliverySMTP] ≡ₚ elements (dom (mainSenders smtp blackfriday_Run strip_StripTags))).
  { unfold mainSenders. by rewrite dom_singleton_L, elements_singleton. }
  destruct (NewHandler_characterized [DeliverySMTP] order cnf _ Hso Hv) as [Hacc Hzero].
  fold (mainHandler order cnf smtp blackfriday_Run strip_StripTags) in Hacc, Hzero.
  destruct (decide (s = "")) as [->|Hs].
  { injection Hdec as <-. rewrite Hzero by done. split; [done|by intros [? _]]. }
  rewrite Decode_nonempty in Hdec by done. injection Hdec as Hcnf Herr.
  apply decodeEntries_nil_iff in Herr.
  rewrite decodeEntries_wellFormed in Hcnf by done. simpl in Hcnf.
  assert (Htr : ∀ e, hasTriple cnf e ↔ e ∈ parsed (Split s comma)).
  { intros e. subst cnf. unfold hasTriple.
    change (targetsOf (Config (Some ?m))) with m.
    rewrite addEntries_triple. split; [|by right].
    intros [H|H]; [by apply mapTriple_empty in H|done]. }
  split.
  - intros E.
    apply Hacc in E as (_ & _ & Hall). split; [done|]. intros e He.
    destruct (Hall e (proj2 (Htr e) He)) as [H1 H2].
    apply Hreg in H1. split; [done|by apply H2].
  - intros [_ Hall].
    { apply Hacc. split; [done|]. split.
      - pose proof (Split_not_nil s comma) as Hne.
        destruct (Split s comma) as [|v vs] eqn:Hsplit; [done|].
        apply Forall_cons in Herr as [Hv1 _].
        apply splitEntry_wellFormed in Hv1 as [e He].
        assert (Hin : hasTriple cnf e).
        { apply Htr. rewrite (parsed_cons _ _ _ He). left. }
        destruct Hin as (tgt & dl & Hlk & _). intros Hz.
        apply map_size_empty_inv in Hz. rewrite Hz in Hlk. by rewrite lookup_empty in Hlk.
      - intros e He. destruct (Hall e (proj1 (Htr e) He)) as [H1 H2].
        split; [by apply Hreg|done]. }
Qed.

(** ** The text of a validation error *)

Lemma append_empty_r (s : string) : s +:+ "" = s.
Proof.
  induction s as [|a s IH]; [done|].
  change (String a s +:+ "") with (String a (s +:+ "")). by rewrite IH.
Qed.

Lemma append_inj_l (p s1 s2 : string) : p +:+ s1 = p +:+ s2 → s1 = s2.
Proof. induction p as [|a p IH]; simpl; [done|]. intros [= H]. by apply IH. Qed.

Lemma kindText_prefix k1 k2 (s1 s2 : string) :
  kindText k1 +:+ s1 = kindText k2 +:+ s2 → k1 = k2.
Proof. destruct k1, k2; simpl; intros H; first [done|discriminate H]. Qed.

(** X8. The text of a validation error tells which error it is: two
    errors with the same text have the same kind, and the same target as
    soon as [%q] prints different strings differently. *)
Theorem Error_tells_the_error (quote : string → string) (e1 e2 : valError) :
  Error quote e1 = Error quote e2 →
  kind e1 = kind e2
  ∧ ((∀ x y, quote x = quote y → x = y) → e1 = e2).
Proof.
  unfold Error. intros H.
  assert (Hk : kind e1 = kind e2).
  { repeat case_decide.
    - by apply kindText_prefix in H.
    - rewrite <- (append_empty_r (kindText (kind e2))) in H. by apply kindText_prefix in H.
    - rewrite <- (append_empty_r (kindText (kind e1))) in H. by apply kindText_prefix in H.
    - rewrite <- (append_empty_r (kindText (kind e1))),
        <- (append_empty_r (kindText (kind e2))) in H. by apply kindText_prefix in H. }
  split; [done|]. intros Hinj.
  destruct e1 as [k1 t1], e2 as [k2 t2]. simpl in *. subst k2. f_equal.
  repeat case_decide.
  - apply append_inj_l in H. injection H as H. by apply Hinj.
  - rewrite <- (append_empty_r (kindText k1)) in H at 2.
    apply append_inj_l in H. discriminate H.
  - rewrite <- (append_empty_r (kindText k1)) in H at 1.
    apply append_inj_l in H. discriminate H.
  - destruct (decide (t1 = "")) as [->|?]; [|done].
    destruct (decide (t2 = "")) as [->|?]; done.
Qed.

(** ** What the pattern accepts *)

Lemma append_assoc_s (s1 s2 s3 : string) : (s1 +:+ s2) +:+ s3 = s1 +:+ s2 +:+ s3.
Proof.
  induction s1 as [|a s1 IH]; [done|].
  change (String a ((s1 +:+ s2) +:+ s3) = String a (s1 +:+ (s2 +:+ s3))). by rewrite IH.
Qed.

Lemma Matches_Lit c s : Matches (Lit c) s → s = String c "".
Proof.
  inversion 1 as [|p a Hp| | | | |]; subst. by apply bool_decide_eq_true in Hp as ->.
Qed.

Lemma Matches_Plus_Class p s : Matches (Plus (Class p)) s → s ≠ "".
Proof.
  intros (s1 & s2 & -> & H1 & _)%Matches_Cat. by inversion H1.
Qed.

(** X9. A recipient the pattern accepts has an at sign, with at least one
    byte before it and a dot somewhere after it. *)
Theorem reEmail_needs_at_and_dot (s : string) :
  MatchString reEmail s = true →
  ∃ a b, s = a +:+ "@" +:+ b ∧ a ≠ "" ∧ contains "."%char b = true.
Proof.
  intros (pre & mid & post & -> & Hm)%MatchString_substring.
  unfold reEmail in Hm.
  apply Matches_Cat in Hm as (s1 & r1 & -> & H1 & Hm).
  apply Matches_Cat in Hm as (s2 & r2 & -> & _ & Hm).
  apply Matches_Cat in Hm as (s3 & s4 & -> & H3 & H4).
  apply Matches_Lit in H3 as ->.
  apply Matches_Cat in H4 as (u & v & -> & Hu & _).
  apply Matches_Cat in Hu as (u1 & u2 & -> & Hu1 & _).
  apply Matches_Cat in Hu1 as (l & d & -> & _ & Hd).
  apply Matches_Lit in Hd as ->.
  apply Matches_Plus_Class in H1.
  exists (pre +:+ s1 +:+ s2), ((((l +:+ ".") +:+ u2) +:+ v) +:+ post).
  split; [|split].
  - by rewrite !append_assoc_s.
  - destruct pre; [by destruct s1|done].
  - by rewrite !contains_app, orb_true_r.
Qed.

(** X10. The pattern is not anchored: a recipient that holds an accepted
    address anywhere in it is accepted, so the validator lets through an
    SMTP recipient with any text before and after an address. *)
Theorem validateRecipient_accepts_surrounded_address
    (sup : list DeliveryType) (targetName : string) (dlv : delivery)
    (recipient pre post : string) :
  name dlv = DeliverySMTP →
  validateRecipient sup targetName dlv recipient = None →
  validateRecipient sup targetName dlv (pre +:+ recipient +:+ post) = None.
Proof.
  intros Hsmtp. unfold validateRecipient.
  destruct (deliverySupported sup (name dlv)); simpl; [|done].
  rewrite !decide_True by done.
  destruct (MatchString reEmail recipient) eqn:Hre; simpl; [|done]. intros _.
  assert (MatchString reEmail (pre +:+ recipient +:+ post) = true) as ->; [|done].
  apply MatchString_substring in Hre as (a & mid & b & -> & Hm).
  apply MatchString_substring. exists (pre +:+ a), mid, (b +:+ post).
  split; [by rewrite !append_assoc_s|done].
Qed.

(** ** The effects of [Send] *)

Section SendEffects.
Context {World : Type}.
Implicit Types (s : SMTPSender World) (mail : MailYak) (wd : World).

Lemma sleeps_retry mail n (tr : list effect) :
  sleeps (Attempt mail :: Sleep n :: tr) = n :: sleeps tr.
Proof. reflexivity. Qed.

Lemma temporaryBefore_cons s mail wd e k :
  (sendfn s mail wd).1 = Some e → isTemporary e = true →
  temporaryBefore s mail (sendfn s mail wd).2 k →
  temporaryBefore s mail wd (S k).
Proof.
  intros He Ht Hk [|j] Hj.
  - exists e. split; [exact He|done].
  - rewrite outcome_S. apply Hk. lia.
Qed.

Lemma attempts_one mail : attempts [Attempt mail] = 1.
Proof. reflexivity. Qed.

Lemma sleeps_one mail : sleeps [Attempt mail] = [].
Proof. reflexivity. Qed.

Lemma temporaryBefore_0 s mail wd : temporaryBefore s mail wd 0.
Proof. intros j Hj. lia. Qed.

Lemma retryLoop_effects s mail retries err wd :
  let run := retryLoop s mail retries err wd in
  (attempts run.2 ≤ length retries)%nat
  ∧ sleeps run.2 `prefix_of` retries
  ∧ run.1.2 = worldAt s mail (attempts run.2) wd
  ∧ run.1.1 = (if decide (attempts run.2 = 0) then err
               else outcome s mail wd (attempts run.2 - 1))
  ∧ temporaryBefore s mail wd (length (sleeps run.2))
  ∧ (length (sleeps run.2) ≤ attempts run.2 ≤ S (length (sleeps run.2)))%nat.
Proof.
  revert err wd. induction retries as [|n rest IH]; intros err wd; cbn zeta.
  - cbn [retryLoop fst snd]. change (attempts []) with 0. change (sleeps []) with (@nil Z).
    cbn [length worldAt]. rewrite decide_True by done.
    split; [lia|]. split; [done|]. split; [done|]. split; [done|].
    split; [apply temporaryBefore_0|lia].
  - cbn [retryLoop]. destruct (sendfn s mail wd) as [[e|] wd1] eqn:E.
    + destruct (isTemporary e) eqn:Ht.
      * specialize (IH (Some e) wd1). cbn zeta in IH.
        destruct (retryLoop s mail rest (Some e) wd1) as [[r wd'] tr].
        cbn [fst snd] in *.
        destruct IH as (Ha & Hp & Hw & Hr & Htmp & Hl1 & Hl2).
        rewrite attempts_retry, sleeps_retry. cbn [length worldAt].
        rewrite decide_False by done.
        split; [lia|]. split; [by apply prefix_cons|].
        split; [by rewrite E|]. split.
        -- rewrite Nat.sub_succ, Nat.sub_0_r. rewrite Hr.
           destruct (attempts tr) as [|a].
           ++ rewrite decide_True by done. unfold outcome. cbn [worldAt]. by rewrite E.
           ++ rewrite decide_False by done.
              rewrite outcome_S, E. cbn [snd]. by rewrite Nat.sub_succ, Nat.sub_0_r.
        -- split; [|lia].
           apply (temporaryBefore_cons s mail wd e); rewrite ?E; cbn [fst snd]; done.
      * cbn [fst snd]. rewrite attempts_one, sleeps_one. cbn [length worldAt].
        rewrite decide_False by done. rewrite E.
        split; [lia|]. split; [apply prefix_nil|]. split; [done|].
        split; [unfold outcome; cbn [worldAt Nat.sub]; by rewrite E|].
        split; [apply temporaryBefore_0|lia].
    + cbn [fst snd]. rewrite attempts_one, sleeps_one. cbn [length worldAt].
      rewrite decide_False by done. rewrite E.
      split; [lia|]. split; [apply prefix_nil|]. split; [done|].
      split; [unfold outcome; cbn [worldAt Nat.sub]; by rewrite E|].
      split; [apply temporaryBefore_0|lia].
Qed.

Lemma retryLoop_exhausted_sleeps s mail retries err wd :
  temporaryBefore s mail wd (length retries) →
  sleeps (retryLoop s mail retries err wd).2 = retries.
Proof.
  revert err wd. induction retries as [|n rest IH]; intros err wd Htmp; [done|].
  apply temporaryBefore_S in Htmp as [(e & He & Ht) Htmp]. cbn [retryLoop].
  destruct (sendfn s mail wd) as [r wd'] eqn:E. cbn [fst snd] in *. subst r.
  rewrite Ht. specialize (IH (Some e) wd' Htmp).
  destruct (retryLoop s mail rest (Some e) wd') as [[r w] tr]. cbn [fst snd] in *.
  by rewrite sleeps_retry, IH.
Qed.

Lemma retryLoop_exhausted_last s mail retries err wd :
  retries ≠ [] →
  temporaryBefore s mail wd (length retries) →
  ∃ tr n, (retryLoop s mail retries err wd).2 = tr ++ [Attempt mail; Sleep n]
          ∧ last retries = Some n.
Proof.
  revert err wd. induction retries as [|n rest IH]; intros err wd Hne Htmp; [done|].
  apply temporaryBefore_S in Htmp as [(e & He & Ht) Htmp]. cbn [retryLoop].
  destruct (sendfn s mail wd) as [r wd'] eqn:E. cbn [fst snd] in *. subst r. rewrite Ht.
  destruct rest as [|n' rest'].
  - exists [], n. done.
  - destruct (IH (Some e) wd' ltac:(done) Htmp) as (tr & m & Heq & Hlast).
    destruct (retryLoop s mail (n' :: rest') (Some e) wd') as [[r w] tr0].
    cbn [fst snd] in *. subst tr0. exists (Attempt mail :: Sleep n :: tr), m. done.
Qed.
End SendEffects.

(** X11. In every run of [Send] the number of attempts is at most the
    length of the retry-wait sequence; the waits are the first entries of
    that sequence, one after each attempt that failed with a temporary
    network error and none elsewhere; the world is the one the attempts
    left; and the result is [nil] when no attempt was made, otherwise what
    the last attempt returned. *)
Theorem Send_effects {World} (blackfriday_Run strip_StripTags : string → string)
    (s : SMTPSender World) (recipients : list string) (msg : Message) (wd : World) :
  let mail := buildMail blackfriday_Run strip_StripTags s recipients msg in
  let run := Send blackfriday_Run strip_StripTags s recipients msg wd in
  (attempts run.2 ≤ length (Retries (conf s)))%nat
  ∧ sleeps run.2 `prefix_of` Retries (conf s)
  ∧ run.1.2 = worldAt s mail (attempts run.2) wd
  ∧ run.1.1 = (if decide (attempts run.2 = 0) then None
               else outcome s mail wd (attempts run.2 - 1))
  ∧ temporaryBefore s mail wd (length (sleeps run.2))
  ∧ (length (sleeps run.2) ≤ attempts run.2 ≤ S (length (sleeps run.2)))%nat.
Proof. intros mail run. apply retryLoop_effects. Qed.

(** X12. When every attempt fails with a temporary network error, [Send]
    has waited every entry of the retry-wait sequence when it returns the
    error: the last wait comes after the last attempt, and before the
    error is returned. *)
Theorem Send_waits_after_the_last_attempt {World}
    (blackfriday_Run strip_StripTags : string → string)
    (s : SMTPSender World) (recipients : list string) (msg : Message) (wd : World) :
  let mail := buildMail blackfriday_Run strip_StripTags s recipients msg in
  let run := Send blackfriday_Run strip_StripTags s recipients msg wd in
  temporaryBefore s mail wd (length (Retries (conf s))) →
  sleeps run.2 = Retries (conf s)
  ∧ attempts run.2 = length (Retries (conf s))
  ∧ (Retries (conf s) ≠ [] →
     ∃ tr n, run.2 = tr ++ [Attempt mail; Sleep n] ∧ last (Retries (conf s)) = Some n).
Proof.
  intros mail run Htmp. subst run. unfold Send. fold mail.
  split; [by apply retryLoop_exhausted_sleeps|]. split.
  - destruct (retryLoop_exhausted s mail (Retries (conf s)) None wd Htmp) as (tr & Heq & Hn).
    by rewrite Heq.
  - intros Hne. by apply retryLoop_exhausted_last.
Qed.

(** ** More of the handler *)

Section HandlerMore.
Context {World : Type}.
Variable quote : string → string.
Variable jsonDecode : string → option Message.
Implicit Types (s : serving World) (g : goroutine World) (cnf : TargetsConfig)
  (reg : gmap DeliveryType (Sender World)).

Lemma ServeHTTP_accepted cnf reg w (r : Request) (wd : World) tgt msg :
  accepted jsonDecode cnf r tgt msg →
  ServeHTTP quote jsonDecode cnf reg w r wd
  = MkServing w [] wd ((λ dl, Go (reg !! name dl) dl msg) <$> deliveries tgt)
      (length (deliveries tgt)) [] Running.
Proof.
  intros (Hname & Hlk & body & Hbody & Hjson & Htext). unfold ServeHTTP.
  rewrite decide_False by done. rewrite Hlk, Hbody, Hjson. by rewrite decide_False.
Qed.

(** A request has an error or is accepted. *)
Lemma request_cases cnf (r : Request) :
  requestError jsonDecode cnf r ∨ ∃ tgt msg, accepted jsonDecode cnf r tgt msg.
Proof.
  unfold requestError, accepted.
  destruct (decide (queryTarget r = "")) as [?|Hname]; [by left; left|].
  destruct (targetsOf cnf !! queryTarget r) as [tgt|] eqn:Hlk; [|by left; right; left].
  destruct (reqBody r) as [body|] eqn:Hbody; [|by left; right; right; left].
  destruct (jsonDecode body) as [msg|] eqn:Hjson.
  - destruct (decide (Text msg = "")) as [Htext|Htext].
    + left. right. right. right. exists body. split; [done|]. right. by exists msg.
    + right. exists tgt, msg. split; [done|]. split; [done|]. by exists body.
  - left. right. right. right. exists body. split; [done|]. by left.
Qed.

Lemma accepted_no_error cnf (r : Request) tgt msg :
  accepted jsonDecode cnf r tgt msg → ¬ requestError jsonDecode cnf r.
Proof.
  intros (Hname & Hlk & body & Hbody & Hjson & Htext)
         [?|[?|[?|(b & Hb & [Hn|(m & Hm & Hm')])]]]; congruence.
Qed.

(** X13. The handler answers 400 exactly to the requests that have an
    error and leaves the 200 of the recorder to all the others, for which
    it starts its goroutines.  A request for a known target is answered
    "No body" when it has none, "Invalid body" when the body does not
    decode, and "Missing required fields: text" when the text is empty;
    each rejection writes one entry in the debug log. *)
Theorem ServeHTTP_answers cnf reg (r : Request) (wd : World) :
  let s0 := ServeHTTP quote jsonDecode cnf reg newRecorder r wd in
  (requestError jsonDecode cnf r ↔ Code (resp s0) = 400)
  ∧ (requestError jsonDecode cnf r → ∃ text, logs s0 = [LogDebug text])
  ∧ (¬ requestError jsonDecode cnf r ↔ Code (resp s0) = 200 ∧ ph s0 = Running)
  ∧ (∀ tgt, queryTarget r ≠ "" → targetsOf cnf !! queryTarget r = Some tgt →
       (reqBody r = None → bodyText (resp s0) = "No body")
       ∧ (∀ body, reqBody r = Some body → jsonDecode body = None →
                  bodyText (resp s0) = "Invalid body")
       ∧ (∀ body msg, reqBody r = Some body → jsonDecode body = Some msg →
                      Text msg = "" →
                      bodyText (resp s0) = "Missing required fields: text")).
Proof.
  intros s0.
  assert (Hrej : requestError jsonDecode cnf r →
                 Code (resp s0) = 400 ∧ ph s0 = Returned ∧ ∃ text, logs s0 = [LogDebug text]).
  { intros Herr.
    destruct (ServeHTTP_rejects quote jsonDecode cnf reg newRecorder r wd Herr)
      as (body & log & Heq).
    subst s0. rewrite Heq. split; [done|]. split; [done|]. by eexists. }
  assert (Hacc : ∀ tgt msg, accepted jsonDecode cnf r tgt msg →
                 Code (resp s0) = 200 ∧ ph s0 = Running).
  { intros tgt msg Ha. subst s0. by rewrite (ServeHTTP_accepted _ _ _ _ _ _ _ Ha). }
  split; [|split; [|split]].
  - split; [by intros (H & _)%Hrej|]. intros Hcode.
    destruct (request_cases cnf r) as [?|(tgt & msg & Ha)]; [done|].
    destruct (Hacc tgt msg Ha) as [H200 _]. congruence.
  - by intros (_ & _ & H)%Hrej.
  - split.
    + intros Hno. destruct (request_cases cnf r) as [?|(tgt & msg & Ha)]; [done|].
      by apply (Hacc tgt msg).
    + intros [H200 _] (H400 & _)%Hrej. congruence.
  - intros tgt Hname Hlk. subst s0. unfold ServeHTTP.
    rewrite decide_False by done. rewrite Hlk. split; [|split].
    + intros ->. vm_compute. reflexivity.
    + intros body -> ->. vm_compute. reflexivity.
    + intros body msg -> -> Htext. rewrite decide_True by done. vm_compute. reflexivity.
Qed.

(** *** A delivery without a sender *)




(** *** The order of the calls *)

Lemma run_in_order reg (msg : Message) (l : list delivery) s :
  ph s = Running →
  wgCount s = length (pending s) →
  pending s ≡ₚ (λ dl, Go (reg !! name dl) dl msg) <$> l →
  Forall (λ dl, is_Some (reg !! name dl)) l →
  ∃ s', rtc step s s' ∧ ph s' = Returned
        ∧ sent s' = sent s ++ ((λ dl, (name dl, recipients dl, msg)) <$> l)
        ∧ resp s' = resp s.
Proof.
  revert s. induction l as [|dl l IH]; intros s Hrun Hcount Hperm Hall.
  - apply Permutation_nil_r in Hperm. rewrite Hperm in Hcount.
    eexists. split; [apply rtc_once; by apply step_wait|].
    simpl. by rewrite app_nil_r.
  - apply Forall_cons in Hall as [[sender Hsender] Hall].
    assert (Hin : Go (reg !! name dl) dl msg ∈ pending s).
    { rewrite Hperm, fmap_cons. left. }
    apply list_elem_of_split in Hin as (g1 & g2 & Hpend).
    destruct (sender (recipients dl) msg (world s)) as [res wd'] eqn:Hsend.
    pose proof (step_send s g1 (Go (reg !! name dl) dl msg) g2 sender res wd'
                  Hrun Hpend Hsender Hsend) as Hstep.
    match type of Hstep with
    | step _ ?s1 => destruct (IH s1) as (s' & Hrtc & Hret & Hsent & Hresp)
    end; [done| | |done|].
    + simpl. rewrite Hcount, Hpend, !length_app. simpl. lia.
    + simpl. rewrite Hpend, fmap_cons in Hperm.
      rewrite <- Permutation_middle in Hperm. by apply Permutation_cons_inv in Hperm.
    + exists s'. split; [by eapply rtc_l|]. split; [done|].
      simpl in Hsent, Hresp. rewrite Hsent, Hresp, fmap_cons, <- app_assoc. done.
Qed.

(** X15. The deliveries of a request are not ordered: for every order of
    the deliveries of the target there is a schedule in which the handler
    returns after calling [Send] for them in exactly that order. *)
Theorem calls_in_any_order cnf reg (r : Request) (wd : World) tgt msg
    (l : list delivery) :
  accepted jsonDecode cnf r tgt msg →
  Forall (λ dl, is_Some (reg !! name dl)) (deliveries tgt) →
  l ≡ₚ deliveries tgt →
  ∃ s, rtc step (ServeHTTP quote jsonDecode cnf reg newRecorder r wd) s
       ∧ ph s = Returned
       ∧ sent s = (λ dl, (name dl, recipients dl, msg)) <$> l
       ∧ Code (resp s) = 200.
Proof.
  intros Ha Hall Hperm. rewrite (ServeHTTP_accepted _ _ _ _ _ _ _ Ha).
  edestruct (run_in_order reg msg l) as (s & Hrtc & Hret & Hsent & Hresp);
    [| | | |exists s; split; [exact Hrtc|]].
  - done.
  - simpl. by rewrite length_fmap.
  - simpl. by rewrite Hperm.
  - by rewrite Hperm.
  - split; [done|]. split; [exact Hsent|]. by rewrite Hresp.
Qed.

(** *** The log *)

Lemma logging_step reg tgt msg s s' : logging reg tgt msg s → step s s' → logging reg tgt msg s'.
Proof.
  intros [Hpend Hlen Hent Hnever Halways] Hstep.
  inversion Hstep as [s1 g1 g g2 sender res wd' Hr Hp Hg Hsend
                     |s1 g1 g g2 Hr Hp Hg
                     |s1 Hr Hzero]; subst.
  - rewrite Hp in Hpend.
    assert (Hrest : Forall (λ g, gsender g = reg !! name (gdlv g) ∧ gmsg g = msg
                                 ∧ gdlv g ∈ deliveries tgt) (g1 ++ g2)).
    { apply Forall_app in Hpend as [H1 H2]. apply Forall_cons in H2 as [_ H2].
      by apply Forall_app. }
    assert (Hthis : gsender g = reg !! name (gdlv g) ∧ gmsg g = msg
                    ∧ gdlv g ∈ deliveries tgt).
    { apply Forall_app in Hpend as [_ H2]. by apply Forall_cons in H2 as [? _]. }
    destruct Hthis as (Hreg & Hmsg & Hdl). rewrite Hg in Hreg.
    constructor; simpl; [done|..].
    + rewrite !length_app. destruct res; simpl; lia.
    + apply Forall_app. split; [done|]. destruct res as [err|]; [|constructor].
      constructor; [|constructor]. exists (gdlv g), err. by rewrite Hmsg.
    + intros Hn. rewrite (Hnever Hn).
      pose proof (Hn _ _ (recipients (gdlv g)) (gmsg g) (world s) (eq_sym Hreg)) as Hres.
      rewrite Hsend in Hres. simpl in Hres. by subst res.
    + intros Hf. rewrite !length_app, (Halways Hf).
      pose proof (Hf _ _ (recipients (gdlv g)) (gmsg g) (world s) (eq_sym Hreg)) as [e Hres].
      rewrite Hsend in Hres. simpl in Hres. by subst res.
  - rewrite Hp in Hpend. constructor; simpl; try done.
    apply Forall_app in Hpend as [H1 H2]. apply Forall_cons in H2 as [_ H2].
    by apply Forall_app.
  - constructor; simpl; done.
Qed.

Lemma logging_rtc reg tgt msg s s' :
  logging reg tgt msg s → rtc step s s' → logging reg tgt msg s'.
Proof. intros Hd Hrtc. induction Hrtc; eauto using logging_step. Qed.

(** X16. While an accepted request is served the log only gets entries
    for failed calls of [Send]: each names a delivery of the target and
    carries the message of the request, and there are never more of them
    than calls made.  With senders that never fail the log stays empty;
    with senders that always fail it has one entry for each call. *)
Theorem log_has_the_failed_calls cnf reg (r : Request) (wd : World) tgt msg :
  accepted jsonDecode cnf r tgt msg →
  ∀ s, rtc step (ServeHTTP quote jsonDecode cnf reg newRecorder r wd) s →
       (length (logs s) ≤ length (sent s))%nat
       ∧ (∀ en, en ∈ logs s →
                ∃ dl err, dl ∈ deliveries tgt ∧ en = LogSendFailed (name dl) err msg)
       ∧ (neverFails reg → logs s = [])
       ∧ (alwaysFails reg → length (logs s) = length (sent s)).
Proof.
  intros Ha s Hs. rewrite (ServeHTTP_accepted _ _ _ _ _ _ _ Ha) in Hs.
  assert (H0 : logging reg tgt msg
            (MkServing newRecorder [] wd
               ((λ dl, Go (reg !! name dl) dl msg) <$> deliveries tgt)
               (length (deliveries tgt)) [] Running)).
  { constructor; simpl; try done.
    apply Forall_fmap, Forall_forall. intros dl Hdl. simpl. done. }
  destruct (logging_rtc _ _ _ _ _ H0 Hs) as [_ Hlen Hent Hnever Halways].
  split; [done|]. split; [|done]. by apply Forall_forall.
Qed.
End HandlerMore.

(** ** What every built configuration satisfies *)

(** X17. In a configuration built by [Decode], whether the calls failed
    or not: the names of targets and deliveries and the recipients are not
    empty and hold neither a colon nor a comma; every target has a
    delivery and every delivery a recipient; and the deliveries of a
    target have distinct names. *)
Theorem constructed_invariants (cnf : TargetsConfig) :
  constructed cnf →
  ∀ t tgt, targetsOf cnf !! t = Some tgt →
    cleanField t
    ∧ deliveries tgt ≠ []
    ∧ NoDup (name <$> deliveries tgt)
    ∧ ∀ dl, dl ∈ deliveries tgt →
        cleanField (name dl)
        ∧ recipients dl ≠ []
        ∧ ∀ r, r ∈ recipients dl → cleanField r.
Proof.
  intros Hc t tgt Hlk.
  pose proof (constructed_inhabited cnf Hc t tgt Hlk) as Hin.
  pose proof (constructed_populated cnf Hc t tgt Hlk) as Hpop.
  pose proof (constructed_uniqueNames cnf Hc t tgt Hlk) as Hun.
  rewrite Forall_forall in Hpop.
  assert (Htr : ∀ dl r, dl ∈ deliveries tgt → r ∈ recipients dl →
                        cleanTriple (t, name dl, r)).
  { intros dl r Hdl Hr. apply (constructed_clean cnf _ Hc). by exists tgt, dl. }
  split; [|split; [done|split; [done|]]].
  - destruct (deliveries tgt) as [|dl ds] eqn:E; [done|].
    assert (Hdl : dl ∈ dl :: ds) by left.
    pose proof (Hpop dl Hdl) as Hr. destruct (recipients dl) as [|r rs] eqn:Er; [done|].
    apply (Htr dl r Hdl). rewrite Er. left.
  - intros dl Hdl. pose proof (Hpop dl Hdl) as Hr. split; [|split; [done|]].
    + destruct (recipients dl) as [|r rs] eqn:Er; [done|].
      apply (Htr dl r Hdl). rewrite Er. left.
    + intros r Hr'. by apply (Htr dl r Hdl).
Qed.

(** * More cases *)

Module MoreCases.
Import TestFixtures MoreFixtures.

Ltac visits_by_computation :=
  unfold visits; vm_compute; first [reflexivity | apply perm_swap].

Lemma goodRequest_accepted cnf tgt :
  targetsOf cnf !! "test" = Some tgt →
  accepted decodeBody cnf goodRequest tgt testMessage.
Proof.
  intros Hlk. split; [done|]. split; [exact Hlk|].
  exists (bodyOf "Test Subject" "Test Message").
  split; [reflexivity|]. split; [vm_compute; reflexivity|done].
Defined.

(** Two entries decoded at once and one after the other. *)
Lemma Decode_joined_two_deliveries :
  oneTarget ≠ "" ∧ smsEntry ≠ ""
  ∧ Decode zeroConfig (oneTarget +:+ "," +:+ smsEntry)
    = match Decode zeroConfig oneTarget with
      | (cnf1, None) => Decode cnf1 smsEntry
      | failed => failed
      end.
Proof.
  split; [done|]. split; [done|]. by apply Decode_joined.
Defined.

(** A decode that fails after adding a delivery keeps the one that was
    there. *)
Lemma Decode_keeps_receiver_on_failure :
  targetsOf testConfig !! "test" = Some (Target [smtpDelivery])
  ∧ ∃ tgt', targetsOf (Decode testConfig smsThenBroken).1 !! "test" = Some tgt'
            ∧ keptIn [smtpDelivery] (deliveries tgt').
Proof.
  assert (H : targetsOf testConfig !! "test" = Some (Target [smtpDelivery]))
    by (vm_compute; reflexivity).
  split; [exact H|].
  exact (proj1 (Decode_keeps_receiver testConfig smsThenBroken "test" _ H)).
Defined.

Lemma Decode_MarshalJSON_identity_two_deliveries :
  Decode zeroConfig (unquotePlain (MarshalJSON quotePlain ["test"] twoDeliveriesConfig))
  = (twoDeliveriesConfig, None).
Proof.
  apply (Decode_MarshalJSON_identity quotePlain unquotePlain twoDeliveriesConfig ["test"]).
  - exact TestCases.unquote_quote.
  - apply constructed_Decode, constructed_zero.
  - visits_by_computation.
  - vm_compute. discriminate.
Defined.

Lemma MarshalJSON_two_orders :
  marshalEntries ["test1"; "test2"] twoTargetsConfig
  ≡ₚ marshalEntries ["test2"; "test1"] twoTargetsConfig.
Proof.
  apply (MarshalJSON_entries_up_to_order twoTargetsConfig
           ["test1"; "test2"] ["test2"; "test1"]); visits_by_computation.
Defined.

Lemma validateTargetConfig_verdict_two_orders :
  validateTargetConfig ["test1"; "test2"] [DeliverySMTP] twoTargetsConfig = None
  ↔ validateTargetConfig ["test2"; "test1"] [DeliverySMTP; DeliverySMTP] twoTargetsConfig
    = None.
Proof.
  apply (validateTargetConfig_verdict ["test1"; "test2"] ["test2"; "test1"]
           [DeliverySMTP] [DeliverySMTP; DeliverySMTP] twoTargetsConfig).
  - visits_by_computation.
  - visits_by_computation.
  - intros d. rewrite !elem_of_cons. tauto.
Defined.

Lemma NewHandler_accepts_test_config :
  NewHandler [DeliverySMTP] ["test"] testConfig testSenders
  = inl (MkHandler testSenders testConfig)
  ↔ MkHandler testSenders testConfig = MkHandler testSenders testConfig
    ∧ size (targetsOf testConfig) ≠ 0
    ∧ ∀ e, hasTriple testConfig e →
           is_Some (testSenders !! e.1.2)
           ∧ (e.1.2 = DeliverySMTP → MatchString reEmail e.2 = true).
Proof.
  apply (NewHandler_accepts [DeliverySMTP] ["test"] testConfig testSenders).
  - vm_compute. reflexivity.
  - visits_by_computation.
Defined.

Lemma mainHandler_accepts_one_target :
  Decode zeroConfig oneTarget = (testConfig, None)
  ∧ (mainHandler ["test"] testConfig (testSender threeRetries)
       renderTitleAndBody (dropTags false)
     = inl (MkHandler (mainSenders (testSender threeRetries)
                         renderTitleAndBody (dropTags false)) testConfig)
     ↔ oneTarget ≠ ""
       ∧ ∀ e, e ∈ parsed (Split oneTarget comma) →
              e.1.2 = DeliverySMTP ∧ MatchString reEmail e.2 = true).
Proof.
  assert (H : Decode zeroConfig oneTarget = (testConfig, None)) by (vm_compute; reflexivity).
  split; [exact H|]. apply (mainHandler_accepts oneTarget); [exact H|visits_by_computation].
Defined.

Lemma Error_tells_invalid_email :
  kind invalidEmail = kind invalidEmail
  ∧ ((∀ x y, quotePlain x = quotePlain y → x = y) → invalidEmail = invalidEmail).
Proof. exact (Error_tells_the_error quotePlain invalidEmail invalidEmail eq_refl). Defined.

Lemma reEmail_needs_at_and_dot_example :
  ∃ a b, "email@example.com" = a +:+ "@" +:+ b ∧ a ≠ "" ∧ contains "."%char b = true.
Proof. apply reEmail_needs_at_and_dot. vm_compute. reflexivity. Defined.

Lemma validateRecipient_accepts_a_sentence :
  validateRecipient supported "test" smtpDelivery
    ("write to " +:+ "email@example.com" +:+ ", please") = None.
Proof.
  apply validateRecipient_accepts_surrounded_address; [reflexivity|].
  vm_compute. reflexivity.
Defined.

Lemma Send_waits_three_times :
  sleeps (runTest threeWaits threeTemporary).2 = threeWaits
  ∧ attempts (runTest threeWaits threeTemporary).2 = 3.
Proof.
  pose proof (Send_waits_after_the_last_attempt renderTitleAndBody (dropTags false)
                (testSender threeWaits) ["email@example.com"] (Msg "" "")
                (0, threeTemporary)) as H.
  cbv zeta in H. destruct H as (Hs & Ha & _).
  - intros [|[|[|j]]] Hj; [eexists; split; reflexivity..|simpl in Hj; lia].
  - split; [exact Hs|exact Ha].
Defined.


Lemma calls_sms_first :
  ∃ s, rtc step (ServeHTTP quotePlain decodeBody twoDeliveriesConfig bothSenders
                   newRecorder goodRequest None) s
       ∧ ph s = Returned
       ∧ sent s = (λ dl, (name dl, recipients dl, testMessage)) <$> [smsDelivery; smtpDelivery]
       ∧ Code (resp s) = 200.
Proof.
  assert (Hlk : targetsOf twoDeliveriesConfig !! "test"
                = Some (Target [smtpDelivery; smsDelivery])) by (vm_compute; reflexivity).
  apply (calls_in_any_order quotePlain decodeBody twoDeliveriesConfig bothSenders goodRequest
           None (Target [smtpDelivery; smsDelivery]) testMessage).
  - by apply goodRequest_accepted.
  - repeat constructor; vm_compute; by eexists.
  - apply perm_swap.
Defined.

Lemma log_of_the_failing_sender :
  accepted decodeBody testConfig goodRequest (Target [smtpDelivery]) testMessage
  ∧ ∀ s, rtc step (ServeHTTP quotePlain decodeBody testConfig testSenders newRecorder
                     goodRequest None) s →
         (length (logs s) ≤ length (sent s))%nat
         ∧ (∀ en, en ∈ logs s →
                  ∃ dl err, dl ∈ deliveries (Target [smtpDelivery])
                            ∧ en = LogSendFailed (name dl) err testMessage)
         ∧ (neverFails testSenders → logs s = [])
         ∧ (alwaysFails testSenders → length (logs s) = length (sent s)).
Proof.
  assert (Ha : accepted decodeBody testConfig goodRequest (Target [smtpDelivery]) testMessage).
  { apply goodRequest_accepted. vm_compute. reflexivity. }
  split; [exact Ha|]. by apply log_has_the_failed_calls.
Defined.

Lemma constructed_invariants_test_config :
  constructed testConfig
  ∧ ∀ t tgt, targetsOf testConfig !! t = Some tgt →
      cleanField t
      ∧ deliveries tgt ≠ []
      ∧ NoDup (name <$> deliveries tgt)
      ∧ ∀ dl, dl ∈ deliveries tgt →
          cleanField (name dl)
          ∧ recipients dl ≠ []
          ∧ ∀ r, r ∈ recipients dl → cleanField r.
Proof.
  assert (Hc : constructed testConfig) by apply constructed_Decode, constructed_zero.
  split; [exact Hc|]. by apply constructed_invariants.
Defined.

End MoreCases.
